(** * sharp-loader: a shallow embedding of the variant-generation pipeline

    The loader turns one source image into several derived images.  This
    development embeds the pure core of the loader -- the safe serializer,
    the preset normaliser, the combination expander, the construction of the
    options handed to the image engine, the ordered application of the
    engine's operations, the naming of outputs and the delivery of assets --
    and proves what its specification says about them.

    Conventions of the embedding:
    - a JavaScript string is the list of its UTF-16 code units;
    - a JavaScript object is the association list of its own enumerable
      properties, in the order [Object.keys] enumerates them; a read of a
      property by a computed name also finds the members the object
      inherits from [Object.prototype] (the type [found]);
    - a JavaScript number is a value of an abstract type with the operations
      the loader uses (the class [JSNumber]); every statement holds for any
      implementation of them, IEEE doubles included;
    - the image engine (sharp) is a heap of instances whose methods update
      the instance they are called on and return it, and whose [clone]
      allocates a new instance. *)

From Stdlib Require Import NArith ZArith QArith List String Ascii Strings.Byte Lia Bool.
From stdpp Require Import base list.
Import ListNotations.

Local Open Scope N_scope.
Local Open Scope list_scope.

(** ** Strings *)

Definition code_unit := N.
Definition jsstring := list code_unit.

(** An ASCII literal of the source as a sequence of code units. *)
Definition str (s : string) : jsstring :=
  List.map N_of_ascii (list_ascii_of_string s).

Definition QUOTE : code_unit := 34.
Definition LF : code_unit := 10.
Definition CR : code_unit := 13.
Definition TAB : code_unit := 9.
Definition LESS : code_unit := 60.
Definition GREATER : code_unit := 62.
Definition SLASH : code_unit := 47.
Definition LSEP : code_unit := 8232.
Definition PSEP : code_unit := 8233.
Definition BACKSLASH : code_unit := 92.
Definition DOT : code_unit := 46.
Definition LBRACKET : code_unit := 91.
Definition RBRACKET : code_unit := 93.

Fixpoint jsstr_eqb (a b : jsstring) : bool :=
  match a, b with
  | [], [] => true
  | x :: a', y :: b' => N.eqb x y && jsstr_eqb a' b'
  | _, _ => false
  end.

(** [Array.prototype.join] on an array of strings. *)
Fixpoint join (sep : jsstring) (parts : list jsstring) : jsstring :=
  match parts with
  | [] => []
  | [p] => p
  | p :: rest => p ++ sep ++ join sep rest
  end.

(** The decimal digits of a natural number. *)
Fixpoint decimal_digits (fuel : nat) (n : N) (acc : jsstring) : jsstring :=
  match fuel with
  | O => acc
  | S fuel' =>
      let acc' := (48 + N.modulo n 10) :: acc in
      if N.ltb n 10 then acc' else decimal_digits fuel' (N.div n 10) acc'
  end.

Definition decimal (n : N) : jsstring :=
  decimal_digits (S (N.to_nat (N.log2 n))) n [].

(** Membership of a code unit in a regular-expression character class. *)
Definition in_class (c : code_unit) (cls : list code_unit) : bool :=
  existsb (N.eqb c) cls.

(** Own-property lookup, [o[key]]: [None] stands for [undefined]. *)
Fixpoint get {V : Type} (key : jsstring) (o : list (jsstring * V)) : option V :=
  match o with
  | [] => None
  | (k, v) :: rest => if jsstr_eqb key k then Some v else get key rest
  end.

(** Assignment [o[key] = v]: an existing property keeps its position, a new
    one is appended. *)
Fixpoint assign {V : Type} (key : jsstring) (v : V) (o : list (jsstring * V))
  : list (jsstring * V) :=
  match o with
  | [] => [(key, v)]
  | (k, w) :: rest =>
      if jsstr_eqb key k then (k, v) :: rest else (k, w) :: assign key v rest
  end.

(** [Object.keys]. *)
Definition keys {V : Type} (o : list (jsstring * V)) : list jsstring :=
  List.map fst o.

(** ** The prototype of plain objects *)

(** The methods that a plain object inherits from [Object.prototype]. *)
Definition object_prototype_methods : list jsstring :=
  [ str "__defineGetter__"; str "__defineSetter__"; str "hasOwnProperty";
    str "__lookupGetter__"; str "__lookupSetter__"; str "isPrototypeOf";
    str "propertyIsEnumerable"; str "toString"; str "valueOf";
    str "toLocaleString" ].

(** The names of all the members of [Object.prototype]. *)
Definition object_prototype_members : list jsstring :=
  str "__proto__" :: str "constructor" :: object_prototype_methods.

(** What the read [o[key]] of a property of a plain object finds: an own
    property; a built-in function inherited from [Object.prototype], known
    by its name; [Object.prototype] itself, for the key [__proto__]; or
    nothing, in which case the read gives [undefined]. *)
Inductive found (V : Type) : Type :=
| Own (v : V)
| Builtin (fname : jsstring)
| Prototype
| Nothing.
Arguments Own {V} v.
Arguments Builtin {V} fname.
Arguments Prototype {V}.
Arguments Nothing {V}.

Definition inherited {V : Type} (key : jsstring) : found V :=
  if jsstr_eqb key (str "__proto__") then Prototype
  else if jsstr_eqb key (str "constructor") then Builtin (str "Object")
  else if existsb (jsstr_eqb key) object_prototype_methods then Builtin key
  else Nothing.

(** The read [o[key]] for a computed [key]. *)
Definition read {V : Type} (key : jsstring) (o : list (jsstring * V))
  : found V :=
  match get key o with
  | Some v => Own v
  | None => inherited key
  end.

(** The string form of a built-in function, as Node prints it. *)
Definition builtin_text (fname : jsstring) : jsstring :=
  str "function " ++ fname ++ str "() { [native code] }".

(** What a built-in of [Object.prototype] returns, as a string, when
    [replace] calls it for a match: [this] is undefined and the first
    argument is the matched text.  [Object] wraps the text, [toString]
    names the undefined receiver, [isPrototypeOf] answers false for a
    string, and every other method throws on the undefined receiver
    ([None]). *)
Definition call_builtin (fname matched : jsstring) : option jsstring :=
  if jsstr_eqb fname (str "Object") then Some matched
  else if jsstr_eqb fname (str "toString") then Some (str "[object Undefined]")
  else if jsstr_eqb fname (str "isPrototypeOf") then Some (str "false")
  else None.

(** ** Safe Serializer: escaping *)

Definition UNICODE_CHARS : list (code_unit * jsstring) :=
  [ (QUOTE, [BACKSLASH; QUOTE]);
    (LF, BACKSLASH :: str "n");
    (CR, BACKSLASH :: str "r");
    (TAB, BACKSLASH :: str "t");
    (LESS, BACKSLASH :: str "u003C");
    (GREATER, BACKSLASH :: str "u003E");
    (SLASH, BACKSLASH :: str "u002F");
    (LSEP, BACKSLASH :: str "u2028");
    (PSEP, BACKSLASH :: str "u2029") ].

(** [UNICODE_CHARS[unsafeChar]], coerced to a string by [replace]. *)
Fixpoint escape_of (table : list (code_unit * jsstring)) (c : code_unit)
  : jsstring :=
  match table with
  | [] => str "undefined"
  | (k, e) :: rest => if N.eqb c k then e else escape_of rest c
  end.

(** The character class of the pattern in [safeString]: carriage return,
    line feed, tab, less-than, greater-than, U+2028, U+2029, double quote
    and slash. *)
Definition unsafe_class : list code_unit :=
  [CR; LF; TAB; LESS; GREATER; LSEP; PSEP; QUOTE; SLASH].

(** [s.replace(/[cls]/, f)]: the pattern has no [g] flag, so the leftmost
    match is replaced and the rest of the string is copied. *)
Fixpoint replace_first (cls : list code_unit) (f : code_unit -> jsstring)
    (s : jsstring) : jsstring :=
  match s with
  | [] => []
  | c :: rest =>
      if in_class c cls then f c ++ rest
      else c :: replace_first cls f rest
  end.

Definition safeString (s : jsstring) : jsstring :=
  replace_first unsafe_class (escape_of UNICODE_CHARS) s.

(** What the escaping rule asks for: every match replaced. *)
Fixpoint replace_all (cls : list code_unit) (f : code_unit -> jsstring)
    (s : jsstring) : jsstring :=
  match s with
  | [] => []
  | c :: rest =>
      if in_class c cls then f c ++ replace_all cls f rest
      else c :: replace_all cls f rest
  end.

Definition escape_every_occurrence (s : jsstring) : jsstring :=
  replace_all unsafe_class (escape_of UNICODE_CHARS) s.

(** ** Values *)

(** The arithmetic of JavaScript numbers that the loader relies on. *)
Class JSNumber (Num : Type) := {
  num_to_string : Num -> jsstring;   (* Number to String *)
  num_of_string : jsstring -> Num;   (* String to Number *)
  num_truthy : Num -> bool;          (* false for zero and NaN *)
  num_mul : Num -> Num -> Num;
  num_div : Num -> Num -> Num;
  num_max : list Num -> Num;         (* Math.max(...xs) *)
  num_zero : Num;
  num_one : Num;
  num_nan : Num
}.

(** The values the loader handles.  [Serializable] is the class of that
    name: an object holding a [render] thunk. *)
#[local] Set Warnings "-register-all".
Inductive jsval (Num : Type) : Type :=
| VUndef
| VNull
| VBool (b : bool)
| VNum (n : Num)
| VStr (s : jsstring)
| VArr (items : list (jsval Num))
| VObj (props : list (jsstring * jsval Num))
| Serializable (render : unit -> jsstring).

Arguments VUndef {Num}.
Arguments VNull {Num}.
Arguments VBool {Num} b.
Arguments VNum {Num} n.
Arguments VStr {Num} s.
Arguments VArr {Num} items.
Arguments VObj {Num} props.
Arguments Serializable {Num} render.

(** The constants of the image library that the loader reads. *)
Class SharpConstants (Num : Type) := {
  gravity_center : jsval Num         (* sharp.gravity.center *)
}.

Definition buffer := list Byte.byte.

(** The methods of an image instance: [invoke key args] is the change that
    the call [image[key](...args)] makes to the instance; [toBuffer] hands
    its callback an error, or the encoded bytes and their [info];
    [sharp] makes an instance from the input bytes and [metadata] settles
    with an error or with the metadata of the image. *)
Class SharpInstance (Num Img : Type) := {
  sharp : buffer -> Img;
  metadata : Img -> jsval Num + list (jsstring * jsval Num);
  invoke : jsstring -> list (jsval Num) -> Img -> Img;
  toBuffer : Img -> jsval Num + buffer * list (jsstring * jsval Num)
}.

(** The services of the host: loader-utils' [interpolateName] (called with
    the resource path, the loader options, the template, the context and
    the content), [mime.getType] ([None] is [null]) and the base64
    rendering of a buffer. *)
Class Host (Num : Type) := {
  interpolateName :
    jsstring -> jsval Num -> jsstring -> jsval Num -> buffer -> jsstring;
  getType : jsstring -> option jsstring;
  base64 : buffer -> jsstring
}.

(** The loader context: its resource path and its options. *)
Record Loader (Num : Type) := {
  resourcePath : jsstring;
  loader_options : jsval Num
}.
Arguments resourcePath {Num} _.
Arguments loader_options {Num} _.

(** What becomes of a promise: it is fulfilled; it is rejected when the
    engine calls back; it was made by [Promise.reject], so that it is
    rejected before the engine completes anything; or it stays pending,
    because the function that would settle it threw. *)
Inductive outcome (Num A : Type) : Type :=
| Fulfilled (a : A)
| Rejected (reason : jsval Num)
| RejectedAtOnce (reason : jsval Num)
| Pending.
Arguments Fulfilled {Num A} a.
Arguments Rejected {Num A} reason.
Arguments RejectedAtOnce {Num A} reason.
Arguments Pending {Num A}.

Section Values.
Context {Num : Type} `{JSNumber Num}.

#[local] Abbreviation value := (jsval Num).
#[local] Abbreviation object := (list (jsstring * jsval Num)).

(** Property read [o.key]: a missing property reads as [undefined]. *)
Definition field (key : jsstring) (o : object) : value :=
  match get key o with
  | Some v => v
  | None => VUndef
  end.

(** Property read [v.key] on a value that need not be an object: reading
    a property of [undefined] or [null] throws ([None]). *)
Definition member (key : jsstring) (v : value) : option value :=
  match v with
  | VUndef | VNull => None
  | VObj o => Some (field key o)
  | _ => Some VUndef
  end.

(** ToString, as applied by template literals. *)
Fixpoint to_string (v : value) : jsstring :=
  match v with
  | VUndef => str "undefined"
  | VNull => str "null"
  | VBool true => str "true"
  | VBool false => str "false"
  | VNum n => num_to_string n
  | VStr s => s
  | VArr items =>
      join (str ",")
        (List.map (fun x => match x with
                            | VUndef | VNull => []
                            | _ => to_string x
                            end) items)
  | VObj _ => str "[object Object]"
  | Serializable _ => str "[object Object]"
  end.

(** ToNumber, as applied by [Number(value)] and by arithmetic. *)
Definition to_number (v : value) : Num :=
  match v with
  | VUndef => num_nan
  | VNull => num_zero
  | VBool true => num_one
  | VBool false => num_zero
  | VNum n => n
  | other => num_of_string (to_string other)
  end.

(** ToBoolean, as applied by [if], [!], [||] and [?:]. *)
Definition truthy (v : value) : bool :=
  match v with
  | VUndef | VNull => false
  | VBool b => b
  | VNum n => num_truthy n
  | VStr [] => false
  | _ => true
  end.

(** Strict equality with a string literal, [v === 'lit']. *)
Definition is_string (lit : jsstring) (v : value) : bool :=
  match v with
  | VStr s => jsstr_eqb s lit
  | _ => false
  end.

(** ** Safe Serializer *)

Fixpoint serialize (source : value) : jsstring :=
  match source with
  | Serializable render => render tt
  | VNull => str "null"
  | VArr items =>
      str "[" ++ join (str ",") (List.map serialize items) ++ str "]"
  | VObj props =>
      str "{" ++
      join (str ",")
        (List.map (fun '(key, v) =>
             [QUOTE] ++ safeString key ++ [QUOTE] ++ str ": " ++ serialize v)
           props)
      ++ str "}"
  | VStr s => [QUOTE] ++ safeString s ++ [QUOTE]
  | other => to_string other
  end.

(** ** Preset Normalizer *)

(** A declared option value: a plain value, or a function of the
    context arguments (the image metadata) producing one. *)
Inductive optval : Type :=
| Lit (v : value)
| Derived (f : object -> optval).

Definition numeric_keys : list jsstring :=
  [str "density"; str "blur"; str "width"; str "height"].

Definition normalizeProperty (key : jsstring) (v : value) : value :=
  if existsb (jsstr_eqb key) numeric_keys then VNum (to_number v) else v.

(** The inner [normalize] of [normalizePreset]. *)
Fixpoint normalize (args : object) (key : jsstring) (val : optval)
  : list value :=
  match val with
  | Derived f => normalize args key (f args)
  | Lit (VArr items) => List.map (normalizeProperty key) items
  | Lit v => [normalizeProperty key v]
  end.

Definition normalizePreset (options : list (jsstring * optval))
    (args : object) : list (jsstring * list value) :=
  fold_left
    (fun result key =>
       match get key options with
       | Some val => assign key (normalize args key val) result
       | None => result
       end)
    (keys options) [].

(** ** Combination Expander *)

(** Modelled from the spec: the function [product] of the package
    cartesian-product, which the loader imports and whose source is not
    part of the repository.  The spec describes its result as the cartesian
    product in odometer order, the first sequence varying slowest, with the
    single empty tuple for no sequences. *)
Fixpoint product {A : Type} (elements : list (list A)) : list (list A) :=
  match elements with
  | [] => [[]]
  | first :: rest =>
      flat_map (fun x => List.map (cons x) (product rest)) first
  end.

(** The pairs [(i, key)] that [keys.forEach((key, i) => ...)] visits. *)
Definition indexed {A : Type} (l : list A) : list (nat * A) :=
  combine (seq 0 (length l)) l.

Definition multiplex (options : list (jsstring * list value))
  : list object :=
  let ks := keys options in
  let values :=
    product (List.map (fun key => match get key options with
                                  | Some vs => vs
                                  | None => []
                                  end) ks) in
  List.map
    (fun entries =>
       fold_left (fun result '(i, key) => assign key (nth i entries VUndef) result)
         (indexed ks) [])
    values.

(** ** Transformation Pipeline: building the options *)

Context `{SharpConstants Num}.

(** [None]: the spread of an undefined [base.density] throws. *)
Definition normalizeSharpOptions (options meta : object)
    (base : list (jsstring * list value)) : option object :=
  let result := [] in
  let result :=
    if truthy (field (str "format") options)
    then assign (str "toFormat") (field (str "format") options) result
    else result in
  let result :=
    if truthy (field (str "width") options)
       || truthy (field (str "height") options)
    then assign (str "resize")
           (VArr [field (str "width") options; field (str "height") options])
           result
    else result in
  let sized :=
    if truthy (field (str "density") options) then
      match get (str "density") base with
      | Some declared =>
          let intrinsic := num_max (List.map to_number declared) in
          let density := to_number (field (str "density") options) in
          Some (assign (str "resize")
                  (VArr [VNum (num_mul (to_number (field (str "width") meta))
                                 (num_div density intrinsic));
                         VNum (num_mul (to_number (field (str "height") meta))
                                 (num_div density intrinsic))])
                  result)
      | None => None
      end
    else Some result in
  match sized with
  | None => None
  | Some result =>
      let mode := field (str "mode") options in
      let result :=
        if is_string (str "cover") mode
        then assign (str "min") (VBool true) result
        else if is_string (str "contain") mode
        then assign (str "max") (VBool true) result
        else assign (str "crop") gravity_center result in
      Some (assign (str "inline")
              (VBool (negb (negb (truthy (field (str "inline") options)))))
              result)
  end.

(** ** Transformation Pipeline: applying the operations *)

Context {Img : Type} `{SharpInstance Num Img}.

(** An image handle is an index into the heap of instances. *)
Definition clone (heap : list Img) (image : nat) : option (list Img * nat) :=
  match heap !! image with
  | Some i => Some (heap ++ [i], length heap)
  | None => None
  end.

(** [image[key].apply(image, args)]: the instance is updated and returned. *)
Definition apply_method (heap : list Img) (image : nat) (key : jsstring)
    (args : list value) : option (list Img * nat) :=
  match heap !! image with
  | Some i => Some (<[image := invoke key args i]> heap, image)
  | None => None
  end.

Definition operations : list jsstring :=
  [str "blur"; str "resize"; str "max"; str "min"; str "crop";
   str "toFormat"].

(** [Array.isArray(value) ? value : [value]]. *)
Definition as_arguments (v : value) : list value :=
  match v with
  | VArr items => items
  | _ => [v]
  end.

Definition transform (heap : list Img) (image : nat) (options : object)
  : option (list Img * nat) :=
  fold_left
    (fun acc key =>
       match acc with
       | Some (heap, image) =>
           match get key options with
           | Some v => apply_method heap image key (as_arguments v)
           | None => Some (heap, image)
           end
       | None => None
       end)
    operations (clone heap image).

(** ** Asset Naming and Emission *)

Definition extension (type : jsstring) : found jsstring :=
  read type
    [ (str "webp", str ".webp");
      (str "jpeg", str ".jpg");
      (str "png", str ".png") ].

(** A replacement argument of [replace], as a string: [undefined] becomes
    its text, and so does an object. *)
Definition replacement_text (r : found jsstring) : jsstring :=
  match r with
  | Own text => text
  | Builtin fname => builtin_text fname
  | Prototype => str "[object Object]"
  | Nothing => str "undefined"
  end.

(** [path.replace(/\.[^.]+$/, text)]: the leftmost dot that is followed, up
    to the end of the string, by one or more code units other than a dot;
    it and what follows are replaced.  [text] has no dollar sign. *)
Fixpoint replace_extension (text : jsstring) (path : jsstring) : jsstring :=
  match path with
  | [] => []
  | c :: rest =>
      if N.eqb c DOT
         && negb (jsstr_eqb rest [])
         && forallb (fun d => negb (N.eqb d DOT)) rest
      then text
      else c :: replace_extension text rest
  end.

(** The same replacement when the second argument of [replace] is a
    function: the match is replaced by what the function returns for it,
    and an exception of the function escapes ([None]). *)
Fixpoint replace_extension_by (f : jsstring -> option jsstring)
    (path : jsstring) : option jsstring :=
  match path with
  | [] => Some []
  | c :: rest =>
      if N.eqb c DOT
         && negb (jsstr_eqb rest [])
         && forallb (fun d => negb (N.eqb d DOT)) rest
      then f path
      else option_map (cons c) (replace_extension_by f rest)
  end.

(** The longest run of code units other than a closing bracket. *)
Fixpoint token_run (s : jsstring) : jsstring * jsstring :=
  match s with
  | [] => ([], [])
  | c :: rest =>
      if N.eqb c RBRACKET then ([], s)
      else let '(run, after) := token_run rest in (c :: run, after)
  end.

(** A match of [/\[([^\]]+)\]/] that starts at an opening bracket followed
    by [s]: the captured name. *)
Definition token_at (s : jsstring) : option jsstring :=
  match token_run s with
  | (c :: run, d :: _) => if N.eqb d RBRACKET then Some (c :: run) else None
  | _ => None
  end.

(** [s.replace(/\[([^\]]+)\]/g, f)]; [skip] counts the code units of the
    last match that are still to be passed over. *)
Fixpoint replace_tokens (f : jsstring -> jsstring -> jsstring) (skip : nat)
    (s : jsstring) : jsstring :=
  match s with
  | [] => []
  | c :: rest =>
      match skip with
      | S k => replace_tokens f k rest
      | O =>
          if N.eqb c LBRACKET then
            match token_at rest with
            | Some name =>
                f (c :: name ++ [RBRACKET]) name
                  ++ replace_tokens f (S (length name)) rest
            | None => c :: replace_tokens f O rest
            end
          else c :: replace_tokens f O rest
      end
  end.

Context `{Host Num}.

Section Emit.
(** The arguments of [emit]: the input bytes, the global options and the
    loader context. *)
Variable input : buffer.
Variable options : object.
Variable loader : Loader Num.

(** [if (o[name]) return o[name]], with the returned value as [replace]
    renders it: the text to substitute, if the property is truthy.  An
    inherited member is always truthy. *)
Definition substitute (r : found value) : option jsstring :=
  match r with
  | Own v => if truthy v then Some (to_string v) else None
  | Builtin fname => Some (builtin_text fname)
  | Prototype => Some (str "[object Object]")
  | Nothing => None
  end.

(** The callback that resolves one placeholder of the name template. *)
Definition resolve_token (info params : object) (whole name : jsstring)
  : jsstring :=
  if jsstr_eqb name (str "name") || jsstr_eqb name (str "hash") then whole
  else
    match substitute (read name params) with
    | Some text => text
    | None =>
        match substitute (read name info) with
        | Some text => text
        | None => whole
        end
    end.

(** [None]: an exception.  The chosen template is not a string, so it
    has no [replace]; or the extension found for the format is a built-in
    that throws; or [loader.options] is read for its context and is
    undefined. *)
Definition name (image : buffer) (info params : object) : option jsstring :=
  let chosen :=
    if truthy (field (str "name") params) then field (str "name") params
    else if truthy (field (str "name") options)
    then field (str "name") options
    else VStr (str "[name].[ext]") in
  match chosen with
  | VStr text =>
      let template := replace_tokens (resolve_token info params) O text in
      let path :=
        match extension (to_string (field (str "format") info)) with
        | Builtin fname =>
            replace_extension_by (call_builtin fname) (resourcePath loader)
        | other =>
            Some (replace_extension (replacement_text other)
                    (resourcePath loader))
        end in
      match path,
            (if truthy (field (str "context") options)
             then Some (field (str "context") options)
             else member (str "context") (loader_options loader)) with
      | Some path, Some context =>
          Some (interpolateName path (loader_options loader) template
                  context input)
      | _, _ => None
      end
  | _ => None
  end.

(** Object spread [{...result, ...source}]. *)
Definition spread (source result : object) : object :=
  fold_left (fun r '(k, v) => assign k v r) source result.

Definition mime_value (type : option jsstring) : value :=
  match type with
  | Some t => VStr t
  | None => VNull
  end.

(** [data]: the asset record, and the files passed to [loader.emitFile].
    The parameter that shadows the global [options] is [params]. *)
Definition data (image : buffer) (info params : object) (preset : value)
    (files : list (jsstring * buffer))
  : option (object * list (jsstring * buffer)) :=
  match name image info params with
  | None => None
  | Some n =>
      let type := getType n in
      let url :=
        if truthy (field (str "inline") params)
        then VStr (join []
                     [ str "data:";
                       match type with Some t => t | None => [] end;
                       str ";base64,";
                       base64 image ])
        else Serializable (fun _ =>
               str "__webpack_public_path__ + " ++ serialize (VStr n)) in
      let result :=
        assign (str "url") url
          (assign (str "name") (VStr n)
             (assign (str "preset") preset
                (assign (str "type") (mime_value type)
                   (spread info (spread params []))))) in
      Some (result,
            if negb (truthy (field (str "inline") params))
            then files ++ [(n, image)]
            else files)
  end.

(** The state the loader works on: the image instances and the files
    emitted so far. *)
Record world := {
  heap : list Img;
  files : list (jsstring * buffer)
}.

(** The function [emit] returns.  An image is its handle and the [_meta]
    stored on it.  [None]: an exception escapes the call.  An exception
    thrown by [data] is thrown inside the callback of [toBuffer]: nothing
    catches it, and the promise stays pending. *)
Definition emit (preset : value) (presetOptions : object)
    (image : nat * object) (base : list (jsstring * list value))
    (w : world) : option (world * outcome Num object) :=
  match normalizeSharpOptions presetOptions (snd image) base with
  | None => None
  | Some spec =>
      match transform (heap w) (fst image) spec with
      | None => None
      | Some (heap', transformedImage) =>
          match heap' !! transformedImage with
          | None => None
          | Some instance =>
              match toBuffer instance with
              | inl err =>
                  Some ({| heap := heap'; files := files w |}, Rejected err)
              | inr (bytes, info) =>
                  match data bytes info presetOptions preset (files w) with
                  | None =>
                      Some ({| heap := heap'; files := files w |}, Pending)
                  | Some (asset, files') =>
                      Some ({| heap := heap'; files := files' |},
                            Fulfilled asset)
                  end
              end
          end
      end
  end.

End Emit.

(** ** Orchestrator *)

(** The own enumerable properties that a spread copies: those of an
    object, the items of an array and the characters of a string under
    their indices, and none for a primitive value.  (A Serializable, whose
    one property is a function, is never spread.) *)
Definition own_properties (v : value) : object :=
  match v with
  | VObj o => o
  | VArr items =>
      List.map (fun '(i, item) => (decimal (N.of_nat i), item)) (indexed items)
  | VStr s =>
      List.map (fun '(i, c) => (decimal (N.of_nat i), VStr [c])) (indexed s)
  | _ => []
  end.

Section Orchestrator.
Context {W A : Type}.
(** The [emit] argument of [handle] and [lolol]. *)
Variable emit_one :
  value -> object -> nat * object -> list (jsstring * list value) ->
  W -> option (W * outcome Num A).

(** [values.map(f)] for an [f] that works on the state. *)
Fixpoint map_state {X Y : Type} (f : X -> W -> option (W * Y))
    (l : list X) (w : W) : option (W * list Y) :=
  match l with
  | [] => Some (w, [])
  | x :: rest =>
      match f x w with
      | None => None
      | Some (w1, y) =>
          match map_state f rest w1 with
          | None => None
          | Some (w2, ys) => Some (w2, y :: ys)
          end
      end
  end.

(** [presets[name]] for a name that is a string or [null]. *)
Definition preset_named (presets : list (jsstring * list (jsstring * optval)))
    (name : value) : found (list (jsstring * optval)) :=
  read (to_string name) presets.

(** The spread of [presets[name]] copies the properties of a declared
    preset; a function, [Object.prototype] and [undefined] have no own
    enumerable property to copy.  All but [undefined] are truthy. *)
Definition handle (image : nat * object) (preset : value) (name : value)
    (presets : list (jsstring * list (jsstring * optval))) (w : W)
  : option (W * list (outcome Num A)) :=
  let base :=
    normalizePreset
      (assign (str "preset") (Lit preset)
         (match preset_named presets name with
          | Own declared => declared
          | _ => []
          end))
      (snd image) in
  if truthy name
     && negb (match preset_named presets name with
              | Nothing => false
              | _ => true
              end)
  then Some (w, [RejectedAtOnce
                   (VStr (str "No such preset: " ++ to_string preset))])
  else
    map_state (fun options => emit_one name options image base)
      (multiplex base) w.

(** [presets.reduce((results, name) => [...results, ...f(name)], [])]. *)
Fixpoint concat_state {X Y : Type} (f : X -> W -> option (W * list Y))
    (l : list X) (w : W) : option (W * list Y) :=
  match l with
  | [] => Some (w, [])
  | x :: rest =>
      match f x w with
      | None => None
      | Some (w1, ys) =>
          match concat_state f rest w1 with
          | None => None
          | Some (w2, zs) => Some (w2, ys ++ zs)
          end
      end
  end.

(** [lolol], before [Promise.all].  [None]: the [TypeError]. *)
Definition lolol (image : nat * object) (extra : value) (presets : value)
    (globals : list (jsstring * list (jsstring * optval))) (w : W)
  : option (W * list (outcome Num A)) :=
  match presets with
  | VArr names =>
      concat_state (fun name => handle image extra name globals) names w
  | VObj selected =>
      concat_state
        (fun '(name, preset) =>
           handle image
             (VObj (spread (own_properties extra)
                      (spread (own_properties preset) [])))
             (VStr name) globals)
        selected w
  | VStr name => handle image extra presets globals w
  | _ => None
  end.

(** The first promise made by [Promise.reject], if there is one. *)
Fixpoint rejected_at_once (promises : list (outcome Num A)) : option value :=
  match promises with
  | [] => None
  | RejectedAtOnce reason :: _ => Some reason
  | _ :: rest => rejected_at_once rest
  end.

(** What the promises come to as the engine calls back, in the order of
    its calls: the assets if all are fulfilled, and else the first
    rejection or uncaught exception. *)
Fixpoint settle (promises : list (outcome Num A)) : outcome Num (list A) :=
  match promises with
  | [] => Fulfilled []
  | Fulfilled a :: rest =>
      match settle rest with
      | Fulfilled others => Fulfilled (a :: others)
      | other => other
      end
  | Rejected reason :: _ => Rejected reason
  | RejectedAtOnce reason :: _ => RejectedAtOnce reason
  | Pending :: _ => Pending
  end.

(** [Promise.all]: it is rejected with the reason of the promise that is
    rejected first in time.  A promise made by [Promise.reject] comes
    before every callback of the engine; the engine is taken to call back
    in the order in which it was called. *)
Definition all (promises : list (outcome Num A)) : outcome Num (list A) :=
  match rejected_at_once promises with
  | Some reason => RejectedAtOnce reason
  | None => settle promises
  end.

End Orchestrator.

(** ** The loader *)

(** How an invocation ends: the callback receives the generated module
    ([Generated]); it receives the reason of a rejected promise as its
    error ([Failed]); it receives as its error the exception that the
    handler of the metadata threw ([Raised]); or it is never called, an
    exception having escaped a callback of the engine ([Uncaught]). *)
Inductive completion : Type :=
| Generated (text : jsstring)
| Failed (err : value)
| Raised
| Uncaught.

(** The rest of [localQuery] after [preset] and [presets] are taken out. *)
Definition rest_of_query (localQuery : object) : object :=
  List.filter
    (fun '(k, _) =>
       negb (jsstr_eqb k (str "preset") || jsstr_eqb k (str "presets")))
    localQuery.

(** The exported function.  [globalQuery] holds the global options other
    than the preset table, which is [presets]; [resourceQuery] is the parsed
    query of the resource, if it has one. *)
Definition sharp_loader (input : buffer) (globalQuery : object)
    (presets : list (jsstring * list (jsstring * optval)))
    (resourceQuery : option object) (loader : Loader Num)
  : completion * list (jsstring * buffer) :=
  let localQuery :=
    match resourceQuery with
    | Some q => q
    | None => [(str "presets", VArr (List.map VStr (keys presets)))]
    end in
  let extra := VObj (rest_of_query localQuery) in
  let image := sharp input in
  let e := emit input globalQuery loader in
  match metadata image with
  | inl err => (Failed err, [])
  | inr meta =>
      let w := {| heap := [image]; files := [] |} in
      let promises :=
        if truthy (field (str "presets") localQuery)
        then lolol e (0%nat, meta) extra (field (str "presets") localQuery)
               presets w
        else if truthy (field (str "preset") localQuery)
        then lolol e (0%nat, meta) extra (field (str "preset") localQuery)
               presets w
        else handle e (0%nat, meta) extra VNull presets w in
      match promises with
      | None => (Raised, [])
      | Some (w', settled) =>
          match all settled with
          | Rejected reason | RejectedAtOnce reason =>
              (Failed reason, files w')
          | Pending => (Uncaught, files w')
          | Fulfilled assets =>
              (Generated
                 (str "module.exports = "
                    ++ serialize (VArr (List.map VObj assets)) ++ str ";"),
               files w')
          end
      end
  end.

(** ** Vocabulary of the specification *)

(** The expansion as the specification words it: an outer loop over the
    values of the first key, nested loops over the later keys. *)
Fixpoint odometer (options : list (jsstring * list value)) : list object :=
  match options with
  | [] => [[]]
  | (key, vs) :: rest =>
      flat_map (fun v => List.map (cons (key, v)) (odometer rest)) vs
  end.

(** The product of the lengths of the value sequences. *)
Definition combinations_count (options : list (jsstring * list value)) : nat :=
  fold_right Nat.mul 1%nat (List.map (fun kv => length (snd kv)) options).

(** A full assignment: the keys of the option set, in its order, each with
    one value of its sequence. *)
Definition assignment_of (options : list (jsstring * list value))
    (combination : object) : Prop :=
  Forall2 (fun kvs kv => fst kvs = fst kv /\ In (snd kv) (snd kvs))
    options combination.

(** One stage of the pipeline: the operation is applied when its key is in
    the options, with the value of the key as its arguments. *)
Definition stage (options : object) (key : jsstring) (instance : Img) : Img :=
  match get key options with
  | Some v => invoke key (as_arguments v) instance
  | None => instance
  end.

End Values.

(** ** Instances to run the loader on *)

(** An image engine that records the calls made on each instance. *)
Definition call_log (Num : Type) : Type :=
  list (jsstring * list (jsval Num)).

#[export] Instance Recorder (Num : Type) : SharpInstance Num (call_log Num) := {
  sharp := fun _ => [];
  metadata := fun _ => inr [];
  invoke := fun key args log => log ++ [(key, args)];
  toBuffer := fun _ => inr ([], [])
}.

(** Numbers as exact rationals with the three special values, to run
    examples on.  The operations agree with those of doubles whenever the
    operands and the result are integers of at most 53 bits; they are exact
    where doubles round, and [rational_of_string] reads decimal integer
    literals only, any other text being read as NaN.  The examples below
    use small integers; no general statement depends on this instance. *)
Inductive rational : Type :=
| NaN
| Infinity (negative : bool)
| Finite (q : Q).

Definition is_zero (q : Q) : bool := Z.eqb (Qnum q) 0.
Definition is_negative (q : Q) : bool := Z.ltb (Qnum q) 0.

Definition rational_mul (a b : rational) : rational :=
  match a, b with
  | NaN, _ | _, NaN => NaN
  | Infinity s, Infinity t => Infinity (xorb s t)
  | Infinity s, Finite q | Finite q, Infinity s =>
      if is_zero q then NaN else Infinity (xorb s (is_negative q))
  | Finite p, Finite q => Finite (Qred (Qmult p q))
  end.

Definition rational_div (a b : rational) : rational :=
  match a, b with
  | NaN, _ | _, NaN => NaN
  | Infinity _, Infinity _ => NaN
  | Infinity s, Finite q => Infinity (xorb s (is_negative q))
  | Finite _, Infinity _ => Finite 0
  | Finite p, Finite q =>
      if is_zero q
      then if is_zero p then NaN else Infinity (is_negative p)
      else Finite (Qred (Qdiv p q))
  end.

Definition rational_max2 (a b : rational) : rational :=
  match a, b with
  | NaN, _ | _, NaN => NaN
  | Infinity false, _ | _, Infinity false => Infinity false
  | Infinity true, x | x, Infinity true => x
  | Finite p, Finite q => if Qle_bool p q then Finite q else Finite p
  end.

Fixpoint fraction_digits (fuel : nat) (r d : N) : jsstring :=
  match fuel with
  | O => []
  | S fuel' =>
      if N.eqb r 0 then []
      else (48 + N.div (10 * r) d) :: fraction_digits fuel' (N.modulo (10 * r) d) d
  end.

Definition rational_to_string (a : rational) : jsstring :=
  match a with
  | NaN => str "NaN"
  | Infinity false => str "Infinity"
  | Infinity true => str "-Infinity"
  | Finite q =>
      let n := Z.abs_N (Qnum q) in
      let d := Npos (Qden q) in
      (if is_negative q then str "-" else [])
        ++ decimal (N.div n d)
        ++ (if N.eqb (N.modulo n d) 0 then []
            else str "." ++ fraction_digits 17 (N.modulo n d) d)
  end.

Fixpoint digits_value (s : jsstring) (acc : N) : option N :=
  match s with
  | [] => Some acc
  | c :: rest =>
      if N.leb 48 c && N.leb c 57
      then digits_value rest (10 * acc + (c - 48))
      else None
  end.

(** Decimal integer literals, and the empty string, which reads as zero. *)
Definition rational_of_string (s : jsstring) : rational :=
  match s with
  | [] => Finite 0
  | c :: rest =>
      if N.eqb c 45 then
        match rest, digits_value rest 0 with
        | _ :: _, Some n => Finite (inject_Z (- Z.of_N n))
        | _, _ => NaN
        end
      else
        match digits_value s 0 with
        | Some n => Finite (inject_Z (Z.of_N n))
        | None => NaN
        end
  end.

#[export] Instance RationalNumber : JSNumber rational := {
  num_to_string := rational_to_string;
  num_of_string := rational_of_string;
  num_truthy := fun a => match a with
                         | NaN => false
                         | Infinity _ => true
                         | Finite q => negb (is_zero q)
                         end;
  num_mul := rational_mul;
  num_div := rational_div;
  num_max := fun xs => fold_left rational_max2 xs (Infinity true);
  num_zero := Finite 0;
  num_one := Finite 1;
  num_nan := NaN
}.

(** [sharp.gravity.center]. *)
#[export] Instance Gravity : SharpConstants rational := {
  gravity_center := VNum (Finite 0)
}.

(** A host that shows what [interpolateName] is called with: the
    interpolated name is the resource path, a colon and the template. *)
Definition EchoHost : Host rational := {|
  interpolateName := fun path _ template _ _ => path ++ str ":" ++ template;
  getType := fun _ => None;
  base64 := fun _ => []
|}.

(** A host whose services are the simplest possible: the interpolated name
    is the template, the content type is known for the name [a.png] only,
    and the base64 text is empty. *)
#[export] Instance PlainHost : Host rational := {
  interpolateName := fun _ _ template _ _ => template;
  getType := fun n => if jsstr_eqb n (str "a.png") then Some (str "image/png")
                      else None;
  base64 := fun _ => []
}.

Definition int (z : Z) : jsval rational := VNum (Finite (inject_Z z)).

(** ** Sample inputs *)

(** The normalized option set of [{format: ['webp', 'jpeg'], density: [1, 2]}]. *)
Definition formats_and_densities : list (jsstring * list (jsval rational)) :=
  [ (str "format", [VStr (str "webp"); VStr (str "jpeg")]);
    (str "density", [int 1; int 2]) ].

(** The preset table [{fit: {mode: 'contain', width: 50, height: 50}}]. *)
Definition contain_presets
  : list (jsstring * list (jsstring * optval (Num:=rational))) :=
  [ (str "fit",
     [ (str "mode", Lit (VStr (str "contain")));
       (str "width", Lit (int 50));
       (str "height", Lit (int 50)) ]) ].

(** The preset table [{thumbnail: {format: 'png'}}]. *)
Definition thumbnail_presets
  : list (jsstring * list (jsstring * optval (Num:=rational))) :=
  [ (str "thumbnail", [ (str "format", Lit (VStr (str "png"))) ]) ].

(** A loader context for the resource [img/photo.tiff]. *)
Definition photo_loader : Loader rational :=
  {| resourcePath := str "img/photo.tiff"; loader_options := VObj [] |}.

(** A recorder heap holding one instance on which nothing was called. *)
Definition fresh_world : world (Img:=call_log rational) :=
  {| heap := [[]]; files := [] |}.

(** The combination [{density: 2, width: 10}], the metadata of an image of
    100 by 100 pixels and the base declaration [{density: [1, 2]}]. *)
Definition dense_options : list (jsstring * jsval rational) :=
  [ (str "density", int 2); (str "width", int 10) ].

Definition square_meta : list (jsstring * jsval rational) :=
  [ (str "width", int 100); (str "height", int 100) ].

Definition dense_base : list (jsstring * list (jsval rational)) :=
  [ (str "density", [int 1; int 2]) ].

(** The options [{toFormat: 'png', resize: [1, 2]}] for [transform]. *)
Definition png_resize : list (jsstring * jsval rational) :=
  [ (str "toFormat", VStr (str "png"));
    (str "resize", VArr [int 1; int 2]) ].

(** The [info] of a produced tiff image, and the options of a combination
    that names its output and is not inline. *)
Definition tiff_info : list (jsstring * jsval rational) :=
  [ (str "format", VStr (str "tiff")) ].

Definition named_params : list (jsstring * jsval rational) :=
  [ (str "name", VStr (str "out.[format]")) ].

(** The normalized option set of [{format: ['webp', 'webp']}]. *)
Definition repeated_format : list (jsstring * list (jsval rational)) :=
  [ (str "format", [VStr (str "webp"); VStr (str "webp")]) ].

(** ** Further vocabulary and sample inputs *)

(** The number of code units of a string that the pattern of [safeString]
    matches. *)
Definition unsafe_count (s : jsstring) : nat :=
  length (List.filter (fun c => in_class c unsafe_class) s).

(** The values that are numbers. *)
Definition is_number {Num : Type} (v : jsval Num) : bool :=
  match v with
  | VNum _ => true
  | _ => false
  end.

(** The declaration [{format: ['webp', 'png'], width: '200'}]. *)
Definition thumbnail_declaration
  : list (jsstring * optval (Num:=rational)) :=
  [ (str "format", Lit (VArr [VStr (str "webp"); VStr (str "png")]));
    (str "width", Lit (VStr (str "200"))) ].

(** The normalized option set of [{format: 'png', width: []}]. *)
Definition no_width : list (jsstring * list (jsval rational)) :=
  [ (str "format", [VStr (str "png")]); (str "width", []) ].

(** A name that holds three double quotes, and a combination that asks
    for it as the name of its output. *)
Definition quoted_name : jsstring :=
  str "a" ++ [QUOTE] ++ str "b" ++ [QUOTE] ++ str "+alert(1)+" ++ [QUOTE]
    ++ str "c".

Definition quoted_params : list (jsstring * jsval rational) :=
  [ (str "name", VStr quoted_name) ].

(** The combination [{blur: 5, format: 'png', inline: true}]. *)
Definition blurred_options : list (jsstring * jsval rational) :=
  [ (str "blur", int 5); (str "format", VStr (str "png"));
    (str "inline", VBool true) ].

(** A combination whose name option is the number 5. *)
Definition numbered_params : list (jsstring * jsval rational) :=
  [ (str "name", int 5) ].

(** The function [emit] returns for no input bytes, no global options and
    the loader of the photo, on the recording engine. *)
Definition record_emit :=
  emit (Img:=call_log rational) [] [] photo_loader.

(** * Properties *)

(** ** Strings and objects *)

Lemma jsstr_eqb_eq (a b : jsstring) : jsstr_eqb a b = true <-> a = b.
Proof.
  revert b; induction a as [|x a IH]; intros [|y b]; simpl;
    try (split; [discriminate | congruence]); try tauto.
  rewrite andb_true_iff, N.eqb_eq, IH.
  split; [intros [-> ->]; reflexivity | intros [= -> ->]; tauto].
Qed.

Lemma jsstr_eqb_refl (a : jsstring) : jsstr_eqb a a = true.
Proof. apply jsstr_eqb_eq; reflexivity. Qed.

Lemma jsstr_eqb_neq (a b : jsstring) : a <> b -> jsstr_eqb a b = false.
Proof.
  intros Hne; destruct (jsstr_eqb a b) eqn:E; [|reflexivity].
  apply jsstr_eqb_eq in E; contradiction.
Qed.

Lemma get_assign_eq {V : Type} (k : jsstring) (v : V) (o : list (jsstring * V)) :
  get k (assign k v o) = Some v.
Proof.
  induction o as [|[k' w] o IH]; simpl.
  - rewrite jsstr_eqb_refl; reflexivity.
  - destruct (jsstr_eqb k k') eqn:E; simpl; rewrite E; [reflexivity | exact IH].
Qed.

Lemma get_assign_ne {V : Type} (k k' : jsstring) (v : V)
    (o : list (jsstring * V)) :
  k <> k' -> get k (assign k' v o) = get k o.
Proof.
  intros Hne; induction o as [|[k2 w] o IH]; simpl.
  - rewrite (jsstr_eqb_neq k k' Hne); reflexivity.
  - destruct (jsstr_eqb k' k2) eqn:E; simpl.
    + apply jsstr_eqb_eq in E; subst k2.
      rewrite (jsstr_eqb_neq k k' Hne); reflexivity.
    + destruct (jsstr_eqb k k2); [reflexivity | exact IH].
Qed.

Lemma assign_fresh {V : Type} (k : jsstring) (v : V) (o : list (jsstring * V)) :
  ~ In k (keys o) -> assign k v o = o ++ [(k, v)].
Proof.
  induction o as [|[k' w] o IH]; simpl; intros Hnot; [reflexivity|].
  rewrite jsstr_eqb_neq by (intros ->; apply Hnot; left; reflexivity).
  rewrite IH by (intros Hin; apply Hnot; right; exact Hin).
  reflexivity.
Qed.

Lemma get_In {V : Type} (k : jsstring) (v : V) (o : list (jsstring * V)) :
  List.NoDup (keys o) -> In (k, v) o -> get k o = Some v.
Proof.
  induction o as [|[k' w] o IH]; simpl; intros Hnd Hin; [contradiction|].
  inversion Hnd as [|? ? Hnot Hnd']; subst.
  destruct Hin as [[= -> ->]|Hin].
  - rewrite jsstr_eqb_refl; reflexivity.
  - rewrite jsstr_eqb_neq; [apply IH; assumption|].
    intros ->; apply Hnot.
    change k' with (fst (k', v)); apply in_map; exact Hin.
Qed.

(** ** Safe Serializer *)

(** The pattern of [safeString] replaces the leftmost unsafe code unit and
    copies whatever follows it. *)
Lemma safeString_first (before after : jsstring) (c : code_unit) :
  forallb (fun d => negb (in_class d unsafe_class)) before = true ->
  in_class c unsafe_class = true ->
  safeString (before ++ c :: after)
  = before ++ escape_of UNICODE_CHARS c ++ after.
Proof.
  intros Hbefore Hc; unfold safeString.
  induction before as [|d before IH]; cbn [app replace_first].
  - rewrite Hc; reflexivity.
  - cbn [forallb] in Hbefore; apply andb_true_iff in Hbefore as [Hd Hrest].
    apply negb_true_iff in Hd; rewrite Hd, (IH Hrest); reflexivity.
Qed.

(** A string without unsafe code units is left as it is. *)
Lemma safeString_clean (s : jsstring) :
  forallb (fun d => negb (in_class d unsafe_class)) s = true ->
  safeString s = s.
Proof.
  unfold safeString; induction s as [|d s IH]; cbn [forallb replace_first];
    [reflexivity|].
  intros Hs; apply andb_true_iff in Hs as [Hd Hrest].
  apply negb_true_iff in Hd; rewrite Hd, (IH Hrest); reflexivity.
Qed.

(** No escape sequence holds an unsafe code unit, but for the quote. *)
Lemma escape_sequence_safe (d c : code_unit) :
  in_class d unsafe_class = true ->
  in_class c unsafe_class = true -> c <> QUOTE ->
  ~ In c (escape_of UNICODE_CHARS d).
Proof.
  intros Hd Hc Hq Hin.
  unfold in_class, unsafe_class in Hd; cbn [existsb] in Hd.
  repeat (apply orb_true_iff in Hd as [Hd|Hd];
          [apply N.eqb_eq in Hd; subst d; vm_compute in Hin;
           repeat (destruct Hin as [<-|Hin];
                   [first [discriminate Hc | exact (Hq eq_refl)]|]);
           exact Hin|]).
  discriminate Hd.
Qed.

(** Replacing every occurrence leaves none of the unsafe code units other
    than the quote, which stays behind a backslash. *)
Lemma escape_every_occurrence_safe (s : jsstring) (c : code_unit) :
  in_class c unsafe_class = true -> c <> QUOTE ->
  ~ In c (escape_every_occurrence s).
Proof.
  intros Hc Hq; unfold escape_every_occurrence.
  induction s as [|d s IH]; cbn [replace_all]; [intros []|].
  destruct (in_class d unsafe_class) eqn:Hd.
  - intros Hin; apply in_app_or in Hin as [Hin|Hin]; [|exact (IH Hin)].
    exact (escape_sequence_safe d c Hd Hc Hq Hin).
  - intros [<-|Hin]; [congruence | exact (IH Hin)].
Qed.

(** C1 (the code departs from the claim): [safeString] escapes the first
    unsafe character of a string only.  In the name [a/b/c] the first slash
    becomes its escape sequence and the second one is copied, so the
    rendered string still holds an unescaped slash, and differs from the
    string in which every occurrence is replaced; the same happens to an
    object key and to a string value under [serialize]. *)
Theorem safeString_escapes_first_occurrence_only :
  safeString (str "a/b/c") = str "a" ++ BACKSLASH :: str "u002Fb/c"
  /\ In SLASH (safeString (str "a/b/c"))
  /\ escape_every_occurrence (str "a/b/c")
     = str "a" ++ BACKSLASH :: str "u002Fb" ++ BACKSLASH :: str "u002Fc"
  /\ safeString (str "a/b/c") <> escape_every_occurrence (str "a/b/c")
  /\ serialize (Num:=rational) (VObj [(str "a/b/c", VStr (str "<<"))])
     = str "{" ++ [QUOTE] ++ str "a" ++ BACKSLASH :: str "u002Fb/c" ++ [QUOTE]
         ++ str ": " ++ [QUOTE] ++ BACKSLASH :: str "u003C<" ++ [QUOTE]
         ++ str "}".
Proof.
  repeat split; try reflexivity.
  - vm_compute; tauto.
  - vm_compute; discriminate.
Qed.

Section Properties.
Context {Num : Type} `{JSNumber Num} `{SharpConstants Num}.
Context {Img : Type} `{SharpInstance Num Img} `{Host Num}.

#[local] Abbreviation value := (jsval Num).
#[local] Abbreviation object := (list (jsstring * jsval Num)).

(** The cases of [serialize]: the token null; the renderings of the items
    of an array, in order, joined by commas between brackets; the pairs of
    quoted key, colon and rendered value of an object, in its key order,
    between braces; a string between double quotes; the text of a number
    or a boolean; and the text that the [render] of a Serializable returns.
    Keys and strings pass through [safeString]. *)
Lemma serialize_equations :
  serialize (Num:=Num) VNull = str "null"
  /\ (forall items : list value,
        serialize (VArr items)
        = str "[" ++ join (str ",") (List.map serialize items) ++ str "]")
  /\ (forall props : object,
        serialize (VObj props)
        = str "{"
            ++ join (str ",")
                 (List.map
                    (fun kv => [QUOTE] ++ safeString (fst kv) ++ [QUOTE]
                                 ++ str ": " ++ serialize (snd kv))
                    props)
            ++ str "}")
  /\ (forall s : jsstring,
        serialize (Num:=Num) (VStr s) = [QUOTE] ++ safeString s ++ [QUOTE])
  /\ (forall n : Num, serialize (VNum n) = num_to_string n)
  /\ serialize (Num:=Num) (VBool true) = str "true"
  /\ serialize (Num:=Num) (VBool false) = str "false"
  /\ (forall render : unit -> jsstring,
        serialize (Num:=Num) (Serializable render) = render tt).
Proof.
  repeat split; try reflexivity.
  intros props; cbn [serialize]; do 3 f_equal.
  apply map_ext; intros [k v]; reflexivity.
Qed.

(** ** Combination Expander *)

Lemma product_length {A : Type} (elements : list (list A)) (entries : list A) :
  In entries (product elements) -> length entries = length elements.
Proof.
  revert entries; induction elements as [|first rest IH]; simpl; intros entries.
  - intros [<-|[]]; reflexivity.
  - rewrite in_flat_map; intros (x & _ & Hin).
    apply in_map_iff in Hin as (tail & <- & Htail).
    simpl; f_equal; apply IH; exact Htail.
Qed.

(** The values that [multiplex] hands to [product]. *)
Lemma values_of_keys (options : list (jsstring * list value)) :
  List.NoDup (keys options) ->
  List.map (fun key => match get key options with
                       | Some vs => vs
                       | None => []
                       end) (keys options)
  = List.map snd options.
Proof.
  intros Hnd; unfold keys; rewrite map_map.
  apply map_ext_in; intros [k vs] Hin; simpl.
  rewrite (get_In k vs options Hnd Hin); reflexivity.
Qed.

Lemma skipn_nth {A : Type} (d : A) (l : list A) (n : nat) :
  (n < length l)%nat -> skipn n l = nth n l d :: skipn (S n) l.
Proof.
  revert n; induction l as [|x l IH]; intros [|n] Hlt; simpl in *;
    try lia; [reflexivity|].
  apply IH; lia.
Qed.

(** The object that [multiplex] builds from one tuple of [product]: the
    assignments append, since the keys are distinct. *)
Lemma build_combination (entries : list value) (ks : list jsstring)
    (n : nat) (acc : object) :
  List.NoDup ks -> (forall k, In k ks -> ~ In k (keys acc)) ->
  fold_left (fun result '(i, key) => assign key (nth i entries VUndef) result)
    (combine (seq n (length ks)) ks) acc
  = acc ++ List.map (fun '(i, key) => (key, nth i entries VUndef))
             (combine (seq n (length ks)) ks).
Proof.
  revert n acc; induction ks as [|k ks IH]; intros n acc Hnd Hfresh.
  - simpl; rewrite app_nil_r; reflexivity.
  - inversion Hnd as [|? ? Hnot Hnd']; subst.
    cbn [length seq combine fold_left List.map].
    rewrite assign_fresh by (apply Hfresh; left; reflexivity).
    rewrite IH; [rewrite <- app_assoc; reflexivity | exact Hnd' |].
    intros k' Hin Hacc; unfold keys in Hacc.
    rewrite map_app in Hacc; apply in_app_or in Hacc as [Hacc|Hacc].
    + exact (Hfresh k' (or_intror Hin) Hacc).
    + destruct Hacc as [<-|[]]; exact (Hnot Hin).
Qed.

Lemma indexed_entries (entries : list value) (ks : list jsstring) (n : nat) :
  length entries = (n + length ks)%nat ->
  List.map (fun '(i, key) => (key, nth i entries VUndef))
    (combine (seq n (length ks)) ks)
  = combine ks (skipn n entries).
Proof.
  revert n; induction ks as [|k ks IH]; intros n Hlen; [reflexivity|].
  cbn [length seq combine List.map].
  rewrite (skipn_nth VUndef entries n) by (simpl in Hlen; lia).
  cbn [combine]; f_equal; apply IH; simpl in Hlen; lia.
Qed.

(** With distinct keys, [multiplex] pairs the keys with each tuple. *)
Lemma multiplex_combine (options : list (jsstring * list value)) :
  List.NoDup (keys options) ->
  multiplex options
  = List.map (combine (keys options)) (product (List.map snd options)).
Proof.
  intros Hnd; unfold multiplex; rewrite (values_of_keys options Hnd).
  apply map_ext_in; intros entries Hin.
  apply product_length in Hin; rewrite length_map in Hin.
  unfold indexed.
  rewrite (build_combination entries (keys options) 0 [] Hnd)
    by (intros k _ []).
  rewrite indexed_entries by (unfold keys; rewrite length_map; simpl; lia).
  reflexivity.
Qed.

Lemma combine_product (options : list (jsstring * list value)) :
  List.map (combine (keys options)) (product (List.map snd options))
  = odometer options.
Proof.
  induction options as [|[k vs] rest IH]; [reflexivity|].
  cbn [keys List.map fst snd product odometer].
  rewrite <- IH; clear IH.
  induction vs as [|v vs IHv]; [reflexivity|].
  cbn [flat_map]; rewrite map_app, IHv; f_equal.
  rewrite !map_map; reflexivity.
Qed.

Lemma flat_map_length {A B : Type} (f : A -> list B) (l : list A) (m : nat) :
  (forall x, length (f x) = m) -> length (flat_map f l) = (length l * m)%nat.
Proof.
  intros Hf; induction l as [|x l IH]; [reflexivity|].
  cbn [flat_map length]; rewrite length_app, Hf, IH; lia.
Qed.

Lemma odometer_length (options : list (jsstring * list value)) :
  length (odometer options) = combinations_count options.
Proof.
  induction options as [|[k vs] rest IH]; [reflexivity|].
  cbn [odometer]; unfold combinations_count in *; cbn [List.map fold_right snd].
  rewrite <- IH.
  apply flat_map_length; intros v; apply length_map.
Qed.

Lemma odometer_complete (options : list (jsstring * list value))
    (combination : object) :
  In combination (odometer options) <-> assignment_of options combination.
Proof.
  unfold assignment_of; revert combination.
  induction options as [|[k vs] rest IH]; intros combination; cbn [odometer].
  - split.
    + intros [<-|[]]; constructor.
    + intros Hall; inversion Hall; left; reflexivity.
  - rewrite in_flat_map; split.
    + intros (v & Hv & Hin); apply in_map_iff in Hin as (tail & <- & Htail).
      constructor; [split; [reflexivity | exact Hv] | apply IH; exact Htail].
    + intros Hall; inversion Hall as [|? [k' v] ? tail [Hk Hv] Htail]; subst.
      simpl in Hk, Hv; subst k'.
      exists v; split; [exact Hv|].
      apply in_map; apply IH; exact Htail.
Qed.

Lemma NoDup_map_cons {B : Type} (b : B) (tails : list (list B)) :
  List.NoDup tails -> List.NoDup (List.map (cons b) tails).
Proof.
  induction 1 as [|t tails Hnot _ IH]; cbn [List.map]; constructor;
    [|exact IH].
  intros Hin; apply in_map_iff in Hin as (t' & [= ->] & Hin); exact (Hnot Hin).
Qed.

Lemma NoDup_flat_map_cons {A B : Type} (f : A -> B) (tails : list (list B))
    (l : list A) :
  (forall x y, f x = f y -> x = y) -> List.NoDup l -> List.NoDup tails ->
  List.NoDup (flat_map (fun x => List.map (cons (f x)) tails) l).
Proof.
  intros Hinj Hl Htails; induction Hl as [|x l Hnot Hl IH]; cbn [flat_map].
  - constructor.
  - apply List.NoDup_app.
    + apply NoDup_map_cons; exact Htails.
    + exact IH.
    + intros c Hc Hc'.
      apply in_map_iff in Hc as (t & <- & _).
      apply in_flat_map in Hc' as (y & Hy & Hin).
      apply in_map_iff in Hin as (t' & [= Hf _] & _).
      apply Hinj in Hf; subst y; exact (Hnot Hy).
Qed.

Lemma odometer_NoDup (options : list (jsstring * list value)) :
  Forall (fun kv => List.NoDup (snd kv)) options ->
  List.NoDup (odometer options).
Proof.
  induction 1 as [|[k vs] rest Hvs _ IH]; cbn [odometer].
  - constructor; [intros [] | constructor].
  - apply (NoDup_flat_map_cons (fun v => (k, v)));
      [intros x y [= ->]; reflexivity | exact Hvs | exact IH].
Qed.

(** C2 (as amended): for an option set with distinct keys, [multiplex]
    returns the combinations in odometer order over the keys in the object's
    order; there are as many as the product of the lengths of the value
    sequences; the combinations are exactly the full assignments of one
    value of its sequence to every key, so none is omitted; they are
    pairwise distinct when no sequence repeats a value; and the empty option
    set gives the one empty combination. *)
Theorem multiplex_odometer (options : list (jsstring * list value)) :
  List.NoDup (keys options) ->
  multiplex options = odometer options
  /\ length (multiplex options) = combinations_count options
  /\ (forall combination : object,
        In combination (multiplex options)
        <-> assignment_of options combination)
  /\ (Forall (fun kv => List.NoDup (snd kv)) options ->
      List.NoDup (multiplex options))
  /\ multiplex (Num:=Num) [] = [[]].
Proof.
  intros Hnd.
  assert (Heq : multiplex options = odometer options)
    by (rewrite (multiplex_combine options Hnd); apply combine_product).
  rewrite Heq; repeat split.
  - apply odometer_length.
  - apply odometer_complete.
  - apply odometer_complete.
  - apply odometer_NoDup.
Qed.

(** ** Transformation Pipeline: applying the operations *)

Lemma apply_method_last (heap : list Img) (i : Img) (key : jsstring)
    (args : list value) :
  apply_method (heap ++ [i]) (length heap) key args
  = Some (heap ++ [invoke key args i], length heap).
Proof.
  unfold apply_method.
  rewrite (list_lookup_middle heap [] i (length heap) eq_refl).
  rewrite insert_app_r_alt by lia.
  rewrite Nat.sub_diag; reflexivity.
Qed.

(** Every operation works on the instance that [clone] made. *)
Lemma stages_on_clone (options : object) (ks : list jsstring)
    (heap : list Img) (i : Img) :
  fold_left
    (fun acc key =>
       match acc with
       | Some (heap, image) =>
           match get key options with
           | Some v => apply_method heap image key (as_arguments v)
           | None => Some (heap, image)
           end
       | None => None
       end)
    ks (Some (heap ++ [i], length heap))
  = Some (heap ++ [fold_left (fun instance key => stage options key instance)
                     ks i],
          length heap).
Proof.
  revert i; induction ks as [|key ks IH]; intros i; [reflexivity|].
  cbn [fold_left]; unfold stage at 2.
  destruct (get key options) as [v|]; [rewrite apply_method_last|]; apply IH.
Qed.

Lemma transform_stages (heap : list Img) (image : nat) (i : Img)
    (options : object) :
  heap !! image = Some i ->
  transform heap image options
  = Some (heap ++ [fold_left (fun instance key => stage options key instance)
                     operations i],
          length heap).
Proof.
  intros Hi; unfold transform, clone; rewrite Hi; apply stages_on_clone.
Qed.

(** C3: [transform] applies to the image the operations blur, resize, max,
    min, crop and toFormat in that order, each to the result of the one
    before; a stage whose key is not in the options leaves the image as it
    is, and a stage whose key is there calls the method of that name with
    the value of the key as arguments. *)
Theorem transform_fixed_order (heap : list Img) (image : nat) (i : Img)
    (options : object) :
  heap !! image = Some i ->
  transform heap image options
  = Some (heap ++
            [stage options (str "toFormat")
               (stage options (str "crop")
                  (stage options (str "min")
                     (stage options (str "max")
                        (stage options (str "resize")
                           (stage options (str "blur") i)))))],
          length heap)
  /\ (forall key instance,
        get key options = None -> stage options key instance = instance)
  /\ (forall key v instance,
        get key options = Some v ->
        stage options key instance = invoke key (as_arguments v) instance).
Proof.
  intros Hi; split; [exact (transform_stages heap image i options Hi)|].
  split; intros key; unfold stage; [intros instance -> | intros v instance ->];
    reflexivity.
Qed.

(** C9: [transform] works on a clone.  It succeeds on every valid handle,
    returns a new handle, leaves the instance of the supplied handle and all
    other instances as they were, and a later transformation of the same
    image for a sibling combination produces the instance it would have
    produced had the first one not run. *)
Theorem transform_leaves_original (heap : list Img) (image : nat) (i : Img)
    (options : object) :
  heap !! image = Some i ->
  exists result : Img,
    transform heap image options = Some (heap ++ [result], length heap)
    /\ (heap ++ [result]) !! image = Some i
    /\ (forall other : nat,
          (other < length heap)%nat ->
          (heap ++ [result]) !! other = heap !! other)
    /\ (forall sibling : object,
          exists result' : Img,
            transform heap image sibling
            = Some (heap ++ [result'], length heap)
            /\ transform (heap ++ [result]) image sibling
               = Some ((heap ++ [result]) ++ [result'],
                       length (heap ++ [result]))).
Proof.
  intros Hi; eexists; split; [exact (transform_stages heap image i options Hi)|].
  assert (Hkeep : forall r, (heap ++ [r]) !! image = Some i)
    by (intros r; rewrite lookup_app_l by (eapply lookup_lt_Some; exact Hi);
        exact Hi).
  split; [apply Hkeep|]; split.
  - intros other Hlt; apply lookup_app_l; exact Hlt.
  - intros sibling; eexists; split.
    + exact (transform_stages heap image i sibling Hi).
    + exact (transform_stages _ image i sibling (Hkeep _)).
Qed.

(** ** Transformation Pipeline: building the options *)

(** The tests of [normalizeSharpOptions] that do not concern density. *)
Ltac option_tests options :=
  destruct (truthy (field (str "format") options));
  destruct (truthy (field (str "width") options)
            || truthy (field (str "height") options));
  destruct (is_string (str "cover") (field (str "mode") options));
  destruct (is_string (str "contain") (field (str "mode") options)).

(** C4: when the density of the combination is set (truthy), the resize of
    the built options is the pair of the intrinsic width and height, each
    multiplied by the density over the largest declared density of the
    base declaration, whatever the width and height of the combination. *)
Theorem density_overrides_resize (options meta : object)
    (base : list (jsstring * list value)) (declared : list value) :
  truthy (field (str "density") options) = true ->
  get (str "density") base = Some declared ->
  exists spec : object,
    normalizeSharpOptions options meta base = Some spec
    /\ get (str "resize") spec
       = Some (VArr
                 [ VNum (num_mul (to_number (field (str "width") meta))
                           (num_div (to_number (field (str "density") options))
                              (num_max (List.map to_number declared))));
                   VNum (num_mul (to_number (field (str "height") meta))
                           (num_div (to_number (field (str "density") options))
                              (num_max (List.map to_number declared)))) ]).
Proof.
  intros Hdensity Hbase; unfold normalizeSharpOptions.
  rewrite Hdensity, Hbase.
  option_tests options; eexists; split; reflexivity.
Qed.

(** C8: the fit operation of the built options depends on the mode alone:
    'cover' sets min, 'contain' sets max, anything else sets crop to the
    centre gravity, and in each case the other two are absent.  For the
    preset [{mode: 'contain', width: 50, height: 50}] the calls made on the
    transformed image are one resize and one max, and no crop. *)
Theorem mode_selects_fit (options meta : object)
    (base : list (jsstring * list value)) (spec : object) :
  normalizeSharpOptions options meta base = Some spec ->
  (get (str "min") spec, get (str "max") spec, get (str "crop") spec)
  = (if is_string (str "cover") (field (str "mode") options)
     then (Some (VBool true), None, None)
     else if is_string (str "contain") (field (str "mode") options)
     then (None, Some (VBool true), None)
     else (None, None, Some gravity_center))
  /\ option_map (fun r => heap (fst r))
       (handle (emit [] [] photo_loader) (0%nat, []) (VObj [])
          (VStr (str "fit")) contain_presets fresh_world)
     = Some [ [];
              [ (str "resize", [int 50; int 50]);
                (str "max", [VBool true]) ] ].
Proof.
  intros Hspec; split; [|vm_compute; reflexivity].
  unfold normalizeSharpOptions in Hspec.
  destruct (truthy (field (str "density") options));
    [destruct (get (str "density") base); [|discriminate Hspec]|];
    injection Hspec as <-; option_tests options; reflexivity.
Qed.

(** ** Asset Naming and Emission *)

Lemma replace_extension_last (text stem ext : jsstring) :
  ext <> [] -> ~ In DOT ext ->
  replace_extension text (stem ++ DOT :: ext) = stem ++ text.
Proof.
  intros Hext Hdot; induction stem as [|c stem IH]; cbn [app replace_extension].
  - rewrite N.eqb_refl, (jsstr_eqb_neq ext [] Hext); cbn [negb andb].
    replace (forallb (fun d => negb (N.eqb d DOT)) ext) with true;
      [reflexivity|].
    symmetry; apply forallb_forall; intros d Hd.
    apply negb_true_iff, N.eqb_neq; intros ->; exact (Hdot Hd).
  - replace (forallb (fun d => negb (N.eqb d DOT)) (stem ++ DOT :: ext))
      with false; [rewrite andb_false_r, IH; reflexivity|].
    symmetry; rewrite forallb_app; cbn [forallb].
    rewrite N.eqb_refl; cbn [negb andb]; apply andb_false_r.
Qed.

Lemma inherited_other {V : Type} (key : jsstring) :
  ~ In key object_prototype_members -> inherited (V:=V) key = Nothing.
Proof.
  intros Hkey; unfold inherited.
  rewrite (jsstr_eqb_neq key (str "__proto__"))
    by (intros ->; apply Hkey; left; reflexivity).
  rewrite (jsstr_eqb_neq key (str "constructor"))
    by (intros ->; apply Hkey; right; left; reflexivity).
  replace (existsb (jsstr_eqb key) object_prototype_methods) with false;
    [reflexivity|].
  symmetry; apply not_true_is_false; intros Hex.
  apply existsb_exists in Hex as (k & Hin & Heq).
  apply jsstr_eqb_eq in Heq; subst k; apply Hkey; right; right; exact Hin.
Qed.

Lemma extension_other (type : jsstring) :
  type <> str "webp" -> type <> str "jpeg" -> type <> str "png" ->
  ~ In type object_prototype_members ->
  extension type = Nothing.
Proof.
  intros Hwebp Hjpeg Hpng Hkey; unfold extension, read; cbn [get].
  rewrite !jsstr_eqb_neq by assumption; apply inherited_other; exact Hkey.
Qed.

(** C10: [extension] gives an extension for webp, jpeg and png, and is
    undefined for every other format (the names of the members of
    [Object.prototype], which are no formats, apart); for such a format the
    resource path handed to the interpolation of the name template has its
    extension replaced by the text undefined, whichever template is used:
    that of the combination, the global one or the default one. *)
Theorem extension_undefined_for_other_formats (input : buffer)
    (options : object) (loader : Loader Num) (image : buffer)
    (info params : object) (template stem ext : jsstring)
    (context : value) :
  let type := to_string (field (str "format") info) in
  type <> str "webp" -> type <> str "jpeg" -> type <> str "png" ->
  ~ In type object_prototype_members ->
  resourcePath loader = stem ++ DOT :: ext -> ext <> [] -> ~ In DOT ext ->
  (if truthy (field (str "name") params) then field (str "name") params
   else if truthy (field (str "name") options)
   then field (str "name") options
   else VStr (str "[name].[ext]")) = VStr template ->
  (if truthy (field (str "context") options)
   then Some (field (str "context") options)
   else member (str "context") (loader_options loader)) = Some context ->
  extension (str "webp") = Own (str ".webp")
  /\ extension (str "jpeg") = Own (str ".jpg")
  /\ extension (str "png") = Own (str ".png")
  /\ extension type = Nothing
  /\ replace_extension (replacement_text (extension type))
       (resourcePath loader)
     = stem ++ str "undefined"
  /\ name input options loader image info params
     = Some (interpolateName (stem ++ str "undefined")
               (loader_options loader)
               (replace_tokens (resolve_token info params) O template)
               context input).
Proof.
  intros type Hwebp Hjpeg Hpng Hmember Hpath Hext Hdot Htemplate Hcontext.
  assert (Hnone : extension type = Nothing)
    by (apply extension_other; assumption).
  assert (Hreplace :
            replace_extension (replacement_text (extension type))
              (resourcePath loader) = stem ++ str "undefined")
    by (rewrite Hnone, Hpath; apply replace_extension_last; assumption).
  repeat split; try reflexivity; try assumption.
  unfold name; fold type; rewrite Htemplate, Hcontext.
  rewrite Hnone in *; cbn [replacement_text] in *; rewrite Hreplace.
  reflexivity.
Qed.

Lemma unsafe_free (s : jsstring) :
  unsafe_count s = 0%nat ->
  forallb (fun d => negb (in_class d unsafe_class)) s = true.
Proof.
  unfold unsafe_count; induction s as [|c s IH]; cbn [List.filter forallb];
    [reflexivity|].
  destruct (in_class c unsafe_class); cbn [length negb andb];
    [discriminate | exact IH].
Qed.

(** X26: [data] delivers an inline asset as a literal data URI made of the
    content type and the base64 text of the bytes, and emits no file; any
    other asset gets as its url a Serializable and one file is emitted,
    under the computed name, with the produced bytes.  The Serializable
    renders as the public path variable, a plus sign and the name between
    double quotes, in which the leftmost unsafe character is replaced by
    its escape sequence and the rest of the name is copied.  The name
    field of the asset is the computed name in both cases. *)
Theorem data_delivery (input : buffer) (options : object)
    (loader : Loader Num) (image : buffer) (info params : object)
    (preset : value) (emitted : list (jsstring * buffer)) (n : jsstring) :
  name input options loader image info params = Some n ->
  exists (asset : object) (emitted' : list (jsstring * buffer)),
    data input options loader image info params preset emitted
    = Some (asset, emitted')
    /\ get (str "name") asset = Some (VStr n)
    /\ if truthy (field (str "inline") params)
       then get (str "url") asset
            = Some (VStr (str "data:"
                            ++ match getType n with
                               | Some type => type
                               | None => []
                               end
                            ++ str ";base64," ++ base64 image))
            /\ emitted' = emitted
       else (exists render : unit -> jsstring,
               get (str "url") asset = Some (Serializable render)
               /\ serialize (Num:=Num) (Serializable render)
                  = str "__webpack_public_path__ + "
                      ++ [QUOTE] ++ safeString n ++ [QUOTE]
               /\ (unsafe_count n = 0%nat ->
                   render tt
                   = str "__webpack_public_path__ + "
                       ++ [QUOTE] ++ n ++ [QUOTE])
               /\ (forall before c after,
                     n = before ++ c :: after ->
                     unsafe_count before = 0%nat ->
                     in_class c unsafe_class = true ->
                     render tt
                     = str "__webpack_public_path__ + "
                         ++ [QUOTE] ++ before ++ escape_of UNICODE_CHARS c
                         ++ after ++ [QUOTE]))
            /\ emitted' = emitted ++ [(n, image)].
Proof.
  intros Hname; unfold data; rewrite Hname.
  do 2 eexists; split; [reflexivity|].
  split.
  - rewrite get_assign_ne by (vm_compute; discriminate).
    apply get_assign_eq.
  - rewrite get_assign_eq.
    destruct (truthy (field (str "inline") params)); cbn [negb].
    + split; [|reflexivity].
      reflexivity.
    + split; [|reflexivity].
      eexists; split; [reflexivity|]; split; [reflexivity|]; split.
      * intros Hclean; cbn [serialize].
        rewrite (safeString_clean n (unsafe_free n Hclean)); reflexivity.
      * intros before c after -> Hbefore Hc; cbn [serialize].
        rewrite (safeString_first before after c (unsafe_free _ Hbefore) Hc).
        rewrite <- !app_assoc; reflexivity.
Qed.

(** ** Orchestrator *)

(** A name that is not in the preset table, and is not the name of a
    member of [Object.prototype], is rejected with a message that is built
    from the overrides, whatever the name was. *)
Lemma handle_unknown_preset {W A : Type}
    (emit_one : value -> object -> nat * object ->
                list (jsstring * list value) -> W -> option (W * outcome Num A))
    (image : nat * object) (extra : object) (missing : jsstring)
    (presets : list (jsstring * list (jsstring * optval))) (w : W) :
  missing <> [] -> get missing presets = None ->
  ~ In missing object_prototype_members ->
  handle emit_one image (VObj extra) (VStr missing) presets w
  = Some (w, [RejectedAtOnce
                (VStr (str "No such preset: [object Object]"))]).
Proof.
  intros Hne Hnone Hmember; unfold handle, preset_named, read.
  cbn [to_string]; rewrite Hnone, (inherited_other missing Hmember).
  destruct missing; [contradiction | reflexivity].
Qed.

End Properties.

(** * Worked examples *)

(** C5 (the code departs from the claim): selecting the preset
    doesnotexist, which the table does not hold, fails the invocation and
    emits no file, but the error message is built from the overrides object
    and not from the name: it reads [No such preset: [object Object]] and
    does not name the preset. *)
Theorem unknown_preset_message_omits_name :
  sharp_loader (Img:=call_log rational) [] [] thumbnail_presets
    (Some [(str "preset", VStr (str "doesnotexist"))]) photo_loader
  = (Failed (VStr (str "No such preset: [object Object]")), []).
Proof. vm_compute; reflexivity. Qed.

(** C6 (the code departs from the claim): the url of an asset that is not
    inline renders as the public path variable plus the name between double
    quotes, but the name is not safely serialized, since [safeString]
    escapes its first unsafe character only.  For the name
    a, quote, b, quote, +alert(1)+, quote, c the file is emitted under that
    name and the url renders with the first quote escaped and the other two
    as they are, which closes the string after b and calls alert. *)
Theorem data_url_escapes_first_quote_only :
  option_map
    (fun r => (option_map serialize (get (str "url") (fst r)), snd r))
    (data [] [] photo_loader [] tiff_info quoted_params VNull [])
  = Some (Some (str "__webpack_public_path__ + "
                  ++ [QUOTE] ++ str "a" ++ [BACKSLASH; QUOTE] ++ str "b"
                  ++ [QUOTE] ++ str "+alert(1)+" ++ [QUOTE] ++ str "c"
                  ++ [QUOTE]),
          [(quoted_name, [])])
  /\ safeString quoted_name <> escape_every_occurrence quoted_name.
Proof.
  split; [vm_compute; reflexivity | vm_compute; discriminate].
Qed.

(** C7 (the code departs from the claim): [serialize] renders null, arrays,
    objects, numbers, booleans and Serializables as the claim says, and puts
    keys and strings between double quotes, but it does not escape them:
    [safeString] replaces their first unsafe character only.  The string
    less-than, slash, script, greater-than is rendered with its slash and
    its greater-than sign as they are, and the key a/b/c with its second
    slash as it is. *)
Theorem serialize_escapes_first_character_only :
  serialize (Num:=rational)
    (VArr [VNull; VObj [(str "a/b/c", VStr (str "</script>"))]])
  = str "[null,{" ++ [QUOTE] ++ str "a" ++ BACKSLASH :: str "u002Fb/c"
      ++ [QUOTE] ++ str ": " ++ [QUOTE] ++ BACKSLASH :: str "u003C/script>"
      ++ [QUOTE] ++ str "}]"
  /\ In GREATER (serialize (Num:=rational) (VStr (str "</script>")))
  /\ In SLASH (serialize (Num:=rational) (VStr (str "</script>")))
  /\ serialize (Num:=rational) (VStr (str "</script>"))
     <> [QUOTE] ++ escape_every_occurrence (str "</script>") ++ [QUOTE].
Proof.
  split; [reflexivity|].
  split; [vm_compute; tauto|].
  split; [vm_compute; tauto|].
  vm_compute; discriminate.
Qed.

(** C2 (the claim as stated fails): a value declared twice gives the same
    combination twice, so the combinations are not pairwise distinct. *)
Lemma multiplex_repeats_combination :
  List.NoDup (keys repeated_format)
  /\ multiplex repeated_format
     = [ [(str "format", VStr (str "webp"))];
         [(str "format", VStr (str "webp"))] ]
  /\ ~ List.NoDup (multiplex repeated_format).
Proof.
  split; [repeat constructor; intros []|].
  split; [reflexivity|].
  intros Hnd; inversion Hnd as [|? ? Hnot _]; apply Hnot; left; reflexivity.
Qed.

Lemma multiplex_odometer_witness :
  List.NoDup (keys formats_and_densities)
  /\ multiplex formats_and_densities = odometer formats_and_densities
  /\ length (multiplex formats_and_densities) = 4%nat.
Proof.
  assert (Hkeys : List.NoDup (keys formats_and_densities)).
  { repeat constructor; vm_compute; intuition discriminate. }
  split; [exact Hkeys|].
  destruct (multiplex_odometer formats_and_densities Hkeys)
    as (Horder & Hcount & _).
  split; [exact Horder | exact Hcount].
Defined.

Lemma transform_fixed_order_witness :
  [[]] !! 0%nat = Some ([] : call_log rational)
  /\ transform [[]] 0 png_resize
     = Some ([ [];
               [ (str "resize", [int 1; int 2]);
                 (str "toFormat", [VStr (str "png")]) ] ],
             1%nat).
Proof.
  split; [reflexivity|].
  exact (proj1 (transform_fixed_order (Img:=call_log rational)
                  [[]] 0 [] png_resize eq_refl)).
Defined.

Lemma transform_leaves_original_witness :
  [[]] !! 0%nat = Some ([] : call_log rational)
  /\ exists result : call_log rational,
       transform [[]] 0 png_resize = Some ([[]; result], 1%nat)
       /\ [[]; result] !! 0%nat = Some [].
Proof.
  split; [reflexivity|].
  destruct (transform_leaves_original (Img:=call_log rational)
              [[]] 0 [] png_resize eq_refl)
    as (result & Hrun & Hkeep & _).
  exists result; split; [exact Hrun | exact Hkeep].
Defined.

Lemma density_overrides_resize_witness :
  truthy (field (str "density") dense_options) = true
  /\ get (str "density") dense_base = Some [int 1; int 2]
  /\ exists spec : list (jsstring * jsval rational),
       normalizeSharpOptions dense_options square_meta dense_base = Some spec
       /\ get (str "resize") spec = Some (VArr [int 100; int 100]).
Proof.
  split; [reflexivity|]; split; [reflexivity|].
  exact (density_overrides_resize dense_options square_meta dense_base
           [int 1; int 2] eq_refl eq_refl).
Defined.

Lemma mode_selects_fit_witness :
  normalizeSharpOptions dense_options square_meta dense_base
  = Some [ (str "resize", VArr [int 100; int 100]);
           (str "crop", int 0);
           (str "inline", VBool false) ]
  /\ (get (str "min") [ (str "resize", VArr [int 100; int 100]);
                        (str "crop", int 0);
                        (str "inline", VBool false) ],
      get (str "max") [ (str "resize", VArr [int 100; int 100]);
                        (str "crop", int 0);
                        (str "inline", VBool false) ],
      get (str "crop") [ (str "resize", VArr [int 100; int 100]);
                         (str "crop", int 0);
                         (str "inline", VBool false) ])
     = (None, None, Some (int 0)).
Proof.
  split; [reflexivity|].
  exact (proj1 (mode_selects_fit dense_options square_meta dense_base _
                  eq_refl)).
Defined.

Lemma extension_undefined_for_other_formats_witness :
  to_string (field (str "format") tiff_info) <> str "webp"
  /\ ~ In (to_string (field (str "format") tiff_info))
        object_prototype_members
  /\ resourcePath photo_loader = str "img/photo" ++ DOT :: str "tiff"
  /\ extension (to_string (field (str "format") tiff_info)) = Nothing
  /\ name (H2:=EchoHost) [] [] photo_loader [] tiff_info []
     = Some (str "img/photoundefined:[name].[ext]").
Proof.
  assert (Hwebp : to_string (field (str "format") tiff_info) <> str "webp")
    by (vm_compute; discriminate).
  assert (Hmember : ~ In (to_string (field (str "format") tiff_info))
                      object_prototype_members)
    by (vm_compute; intuition discriminate).
  split; [exact Hwebp|]; split; [exact Hmember|]; split; [reflexivity|].
  destruct (extension_undefined_for_other_formats (H2:=EchoHost)
              [] [] photo_loader [] tiff_info []
              (str "[name].[ext]") (str "img/photo") (str "tiff") VUndef
              Hwebp
              ltac:(vm_compute; discriminate)
              ltac:(vm_compute; discriminate)
              Hmember
              eq_refl
              ltac:(vm_compute; discriminate)
              ltac:(vm_compute; intuition discriminate)
              eq_refl
              eq_refl)
    as (_ & _ & _ & Hnone & _ & Hname).
  split; [exact Hnone | exact Hname].
Defined.

Lemma data_delivery_witness :
  name [] [] photo_loader [] tiff_info named_params = Some (str "out.tiff")
  /\ exists (asset : list (jsstring * jsval rational))
       (emitted : list (jsstring * buffer)),
       data [] [] photo_loader [] tiff_info named_params VNull []
       = Some (asset, emitted)
       /\ get (str "name") asset = Some (VStr (str "out.tiff"))
       /\ emitted = [(str "out.tiff", [])].
Proof.
  assert (Hn : name [] [] photo_loader [] tiff_info named_params
               = Some (str "out.tiff")) by reflexivity.
  split; [exact Hn|].
  destruct (data_delivery [] [] photo_loader [] tiff_info named_params
              VNull [] (str "out.tiff") Hn)
    as (asset & emitted & Hdata & Hname & Hurl).
  exists asset, emitted; split; [exact Hdata|]; split; [exact Hname|].
  exact (proj2 Hurl).
Defined.

(** * Further properties *)

(** ** Escaping *)

Lemma replace_all_clean (s : jsstring) :
  unsafe_count s = 0%nat -> escape_every_occurrence s = s.
Proof.
  unfold unsafe_count, escape_every_occurrence.
  induction s as [|c s IH]; cbn [List.filter replace_all]; [reflexivity|].
  destruct (in_class c unsafe_class); cbn [length]; [discriminate|].
  intros Hs; rewrite (IH Hs); reflexivity.
Qed.

(** X1: a string that holds at most one unsafe character is escaped in
    full: [safeString] agrees with the replacement of every occurrence, and
    its result holds none of the unsafe characters other than a quote
    behind its backslash. *)
Theorem safeString_single_unsafe (s : jsstring) :
  (unsafe_count s <= 1)%nat ->
  safeString s = escape_every_occurrence s
  /\ (forall c, in_class c unsafe_class = true -> c <> QUOTE ->
              ~ In c (safeString s)).
Proof.
  intros Hcount.
  assert (Heq : safeString s = escape_every_occurrence s).
  { revert Hcount; unfold unsafe_count, safeString, escape_every_occurrence.
    induction s as [|c s IH]; cbn [List.filter replace_first replace_all];
      [reflexivity|].
    destruct (in_class c unsafe_class); cbn [length]; intros Hcount.
    - f_equal; symmetry; apply replace_all_clean; unfold unsafe_count; lia.
    - f_equal; apply IH; exact Hcount. }
  split; [exact Heq|].
  intros c Hc Hq; rewrite Heq; apply escape_every_occurrence_safe; assumption.
Qed.

(** X2: [safeString] replaces the leftmost unsafe character by its escape
    sequence and copies what follows it unchanged, unsafe characters
    included. *)
Theorem safeString_leftmost (before after : jsstring) (c : code_unit) :
  unsafe_count before = 0%nat ->
  in_class c unsafe_class = true ->
  safeString (before ++ c :: after)
  = before ++ escape_of UNICODE_CHARS c ++ after
  /\ unsafe_count (safeString (before ++ c :: after))
     = (unsafe_count (escape_of UNICODE_CHARS c) + unsafe_count after)%nat.
Proof.
  intros Hbefore Hc.
  assert (Heq : safeString (before ++ c :: after)
                = before ++ escape_of UNICODE_CHARS c ++ after).
  { unfold safeString; revert Hbefore; unfold unsafe_count.
    induction before as [|d before IH];
      cbn [app replace_first List.filter]; intros Hbefore.
    - rewrite Hc; reflexivity.
    - destruct (in_class d unsafe_class); [discriminate Hbefore|].
      rewrite (IH Hbefore); reflexivity. }
  split; [exact Heq|].
  rewrite Heq; unfold unsafe_count in *.
  rewrite !List.filter_app, !length_app, Hbefore; reflexivity.
Qed.

Section Further.
Context {Num : Type} `{JSNumber Num} `{SharpConstants Num}.
Context {Img : Type} `{SharpInstance Num Img} `{Host Num}.

#[local] Abbreviation value := (jsval Num).
#[local] Abbreviation object := (list (jsstring * jsval Num)).

(** ** Preset Normalizer *)

Lemma normalizePreset_fold (args : object)
    (options done todo : list (jsstring * optval)) :
  List.NoDup (keys options) -> options = done ++ todo ->
  fold_left
    (fun result key =>
       match get key options with
       | Some val => assign key (normalize args key val) result
       | None => result
       end)
    (keys todo)
    (List.map (fun kv => (fst kv, normalize args (fst kv) (snd kv))) done)
  = List.map (fun kv => (fst kv, normalize args (fst kv) (snd kv))) options.
Proof.
  intros Hnd; revert done; induction todo as [|[k val] todo IH];
    intros done Hsplit.
  - rewrite app_nil_r in Hsplit; subst; reflexivity.
  - cbn [keys List.map fst fold_left].
    rewrite (get_In k val options Hnd)
      by (rewrite Hsplit; apply in_or_app; right; left; reflexivity).
    rewrite assign_fresh.
    + specialize (IH (done ++ [(k, val)])).
      rewrite map_app in IH; apply IH.
      rewrite Hsplit, <- app_assoc; reflexivity.
    + unfold keys; rewrite map_map; cbn [fst].
      intros Hin; rewrite Hsplit in Hnd; unfold keys in Hnd.
      rewrite map_app in Hnd; cbn [List.map fst] in Hnd.
      apply NoDup_remove_2 in Hnd; apply Hnd, in_or_app; left; exact Hin.
Qed.

Lemma normalizePreset_map (args : object)
    (options : list (jsstring * optval)) :
  List.NoDup (keys options) ->
  normalizePreset options args
  = List.map (fun kv => (fst kv, normalize args (fst kv) (snd kv))) options.
Proof.
  intros Hnd; exact (normalizePreset_fold args options [] options Hnd eq_refl).
Qed.

(** X3: [normalizePreset] keeps the keys of the preset, in their order, and
    maps each of them to the normalisation of its declared value. *)
Theorem normalizePreset_keeps_keys (args : object)
    (options : list (jsstring * optval)) :
  List.NoDup (keys options) ->
  keys (normalizePreset options args) = keys options
  /\ (forall key val, In (key, val) options ->
        get key (normalizePreset options args)
        = Some (normalize args key val)).
Proof.
  intros Hnd; rewrite (normalizePreset_map args options Hnd).
  assert (Hkeys : keys (List.map (fun kv => (fst kv,
                                    normalize args (fst kv) (snd kv))) options)
                  = keys options)
    by (unfold keys; rewrite map_map; reflexivity).
  split; [exact Hkeys|].
  intros key val Hin; apply get_In; [rewrite Hkeys; exact Hnd|].
  apply (in_map (fun kv => (fst kv, normalize args (fst kv) (snd kv)))
           options (key, val) Hin).
Qed.

(** X4: whatever is declared for density, blur, width or height -- a
    value, an array, or a function of the metadata producing either -- every
    value of its normalised sequence is a number. *)
Theorem normalize_numeric (args : object) (key : jsstring) (val : optval) :
  In key numeric_keys ->
  forallb is_number (normalize args key val) = true.
Proof.
  intros Hkey.
  assert (Hnum : forall v, is_number (normalizeProperty key v) = true).
  { intros v; unfold normalizeProperty.
    replace (existsb (jsstr_eqb key) numeric_keys) with true; [reflexivity|].
    symmetry; apply existsb_exists; exists key; split;
      [exact Hkey | apply jsstr_eqb_refl]. }
  induction val as [v|f IH]; cbn [normalize]; [|apply IH].
  destruct v; cbn [forallb]; rewrite ?Hnum; try reflexivity.
  apply forallb_forall; intros x Hx.
  apply in_map_iff in Hx as (y & <- & _); apply Hnum.
Qed.

(** X5: for any other key a declared scalar becomes the one-element
    sequence holding it and a declared array becomes the sequence of its
    items, all unchanged. *)
Theorem normalize_passes_through (args : object) (key : jsstring)
    (v : value) :
  ~ In key numeric_keys ->
  normalize args key (Lit v)
  = match v with
    | VArr items => items
    | _ => [v]
    end.
Proof.
  intros Hkey.
  assert (Hid : forall x, normalizeProperty key x = x).
  { intros x; unfold normalizeProperty.
    replace (existsb (jsstr_eqb key) numeric_keys) with false; [reflexivity|].
    symmetry; apply not_true_is_false; intros Hex.
    apply existsb_exists in Hex as (k & Hin & Heq).
    apply jsstr_eqb_eq in Heq; subst k; exact (Hkey Hin). }
  destruct v; cbn [normalize]; rewrite ?Hid; try reflexivity.
  rewrite (map_ext _ (fun x => x) Hid); apply map_id.
Qed.

(** ** Combination Expander *)

(** X6: a key whose value sequence is empty leaves no combination at
    all. *)
Theorem multiplex_empty_sequence (options : list (jsstring * list value))
    (key : jsstring) :
  List.NoDup (keys options) -> In (key, []) options ->
  multiplex options = [].
Proof.
  intros Hnd Hin.
  rewrite (multiplex_combine options Hnd), combine_product.
  clear Hnd; induction options as [|[k vs] rest IH]; [destruct Hin|].
  cbn [odometer]; destruct Hin as [[= -> ->]|Hin]; [reflexivity|].
  rewrite (IH Hin); clear.
  induction vs as [|v vs IHv]; [reflexivity | exact IHv].
Qed.

(** X7: an option set in which every key has one value expands to the
    single combination holding these values. *)
Theorem multiplex_scalars (combination : object) :
  List.NoDup (keys combination) ->
  multiplex (List.map (fun kv => (fst kv, [snd kv])) combination)
  = [combination].
Proof.
  intros Hnd; rewrite multiplex_combine
    by (unfold keys; rewrite map_map; exact Hnd).
  rewrite combine_product; clear Hnd.
  induction combination as [|[k v] rest IH]; [reflexivity|].
  cbn [List.map fst snd odometer flat_map]; rewrite IH; reflexivity.
Qed.

(** ** Transformation Pipeline *)

Lemma stages_fail (options : object) (ks : list jsstring) :
  fold_left
    (fun acc key =>
       match acc with
       | Some (heap, image) =>
           match get key options with
           | Some v => apply_method heap image key (as_arguments v)
           | None => Some (heap, image)
           end
       | None => None
       end)
    ks None
  = None.
Proof. induction ks as [|key ks IH]; [reflexivity | exact IH]. Qed.

Lemma transform_invalid (heap : list Img) (image : nat) (options : object) :
  heap !! image = None -> transform heap image options = None.
Proof.
  intros Hnone; unfold transform, clone; rewrite Hnone; apply stages_fail.
Qed.

(** X9: [transform] reads the six operation keys only: two option objects
    that agree on them give the same result, so that the inline flag of the
    built options, or any other key, has no effect on the image. *)
Theorem transform_reads_operations_only (heap : list Img) (image : nat)
    (options options' : object) :
  (forall key, In key operations -> get key options = get key options') ->
  transform heap image options = transform heap image options'.
Proof.
  unfold transform; generalize (clone heap image); generalize operations.
  intros ks; induction ks as [|key ks IH]; intros start Hagree;
    [reflexivity|].
  cbn [fold_left]; rewrite (Hagree key (or_introl eq_refl)).
  apply IH; intros k Hk; apply Hagree; right; exact Hk.
Qed.

(** The tests of [normalizeSharpOptions] on a combination. *)
Ltac built_options options :=
  destruct (truthy (field (str "format") options));
  destruct (truthy (field (str "width") options)
            || truthy (field (str "height") options));
  destruct (is_string (str "cover") (field (str "mode") options));
  destruct (is_string (str "contain") (field (str "mode") options)).

(** X10: the options that [normalizeSharpOptions] builds hold no other keys
    than toFormat, resize, min, max, crop and inline.  In particular they
    never hold blur, whatever the combination declares: the blur stage of
    [transform] leaves the image as it is. *)
Theorem normalizeSharpOptions_never_blurs (options meta : object)
    (base : list (jsstring * list value)) (spec : object) :
  normalizeSharpOptions options meta base = Some spec ->
  (forall key, In key (keys spec) ->
        In key [str "toFormat"; str "resize"; str "min"; str "max";
                str "crop"; str "inline"])
  /\ get (str "blur") spec = None
  /\ (forall instance : Img, stage spec (str "blur") instance = instance).
Proof.
  intros Hspec; unfold normalizeSharpOptions in Hspec.
  assert (Hblur : get (str "blur") spec = None
                  /\ forall key, In key (keys spec) ->
                        In key [str "toFormat"; str "resize"; str "min";
                                str "max"; str "crop"; str "inline"]).
  { destruct (truthy (field (str "density") options));
      [destruct (get (str "density") base); [|discriminate Hspec]|];
      injection Hspec as <-; built_options options;
      (split; [reflexivity
              | intros key; vm_compute; tauto]). }
  destruct Hblur as [Hblur Hkeys].
  split; [exact Hkeys|]; split; [exact Hblur|].
  intros instance; unfold stage; rewrite Hblur; reflexivity.
Qed.

(** X11: [normalizeSharpOptions] throws exactly when the combination has a
    density and the base declaration has none. *)
Theorem normalizeSharpOptions_throws_iff (options meta : object)
    (base : list (jsstring * list value)) :
  normalizeSharpOptions options meta base = None
  <-> truthy (field (str "density") options) = true
      /\ get (str "density") base = None.
Proof.
  unfold normalizeSharpOptions.
  destruct (truthy (field (str "density") options));
    [destruct (get (str "density") base)|];
    (split; [intros Hnone; try discriminate Hnone; split; reflexivity
            | intros [Hd Hb]; try discriminate Hd; try discriminate Hb;
              reflexivity]).
Qed.

(** X12: in the built options toFormat is the format of the combination
    when it has one, inline is the inline flag as a boolean, and, for a
    combination without density, resize is the pair of its width and height
    when it has one of them and is absent otherwise. *)
Theorem normalizeSharpOptions_fields (options meta : object)
    (base : list (jsstring * list value)) (spec : object) :
  normalizeSharpOptions options meta base = Some spec ->
  get (str "toFormat") spec
  = (if truthy (field (str "format") options)
     then Some (field (str "format") options) else None)
  /\ get (str "inline") spec
     = Some (VBool (truthy (field (str "inline") options)))
  /\ (truthy (field (str "density") options) = false ->
      get (str "resize") spec
      = if truthy (field (str "width") options)
           || truthy (field (str "height") options)
        then Some (VArr [field (str "width") options;
                         field (str "height") options])
        else None).
Proof.
  intros Hspec; unfold normalizeSharpOptions in Hspec.
  rewrite negb_involutive in Hspec.
  destruct (truthy (field (str "density") options));
    [destruct (get (str "density") base); [|discriminate Hspec]|];
    injection Hspec as <-; built_options options;
    (split; [reflexivity|]; split; [reflexivity|]);
    intros Hd; first [discriminate Hd | reflexivity].
Qed.

(** ** Asset Naming and Emission *)

(** X13: a resource path without an extension -- one that has no dot, or
    that ends with a dot -- is handed over as it is. *)
Theorem replace_extension_without_extension (text path : jsstring) :
  (~ In DOT path -> replace_extension text path = path)
  /\ replace_extension text (path ++ [DOT]) = path ++ [DOT].
Proof.
  split.
  - induction path as [|c path IH]; intros Hdot; [reflexivity|].
    cbn [replace_extension].
    rewrite (proj2 (N.eqb_neq c DOT))
      by (intros ->; apply Hdot; left; reflexivity).
    cbn [andb]; rewrite IH; [reflexivity|].
    intros Hin; apply Hdot; right; exact Hin.
  - induction path as [|c path IH]; [reflexivity|].
    cbn [app replace_extension].
    replace (forallb (fun d => negb (N.eqb d DOT)) (path ++ [DOT]))
      with false; [rewrite andb_false_r, IH; reflexivity|].
    symmetry; rewrite forallb_app; cbn [forallb].
    rewrite N.eqb_refl; cbn [negb andb]; apply andb_false_r.
Qed.

(** X14: for the formats webp, jpeg and png the last extension of the
    resource path is replaced by the extension of the produced format,
    whatever the extension of the source was. *)
Theorem replace_extension_known_formats (stem ext : jsstring) :
  ext <> [] -> ~ In DOT ext ->
  replace_extension (replacement_text (extension (str "webp")))
    (stem ++ DOT :: ext) = stem ++ str ".webp"
  /\ replace_extension (replacement_text (extension (str "jpeg")))
       (stem ++ DOT :: ext) = stem ++ str ".jpg"
  /\ replace_extension (replacement_text (extension (str "png")))
       (stem ++ DOT :: ext) = stem ++ str ".png".
Proof.
  intros Hext Hdot; repeat split;
    apply (replace_extension_last _ stem ext Hext Hdot).
Qed.

Lemma token_run_closed (key post : jsstring) :
  ~ In RBRACKET key ->
  token_run (key ++ RBRACKET :: post) = (key, RBRACKET :: post).
Proof.
  induction key as [|c key IH]; intros Hclosed; cbn [app token_run].
  - rewrite N.eqb_refl; reflexivity.
  - rewrite (proj2 (N.eqb_neq c RBRACKET))
      by (intros ->; apply Hclosed; left; reflexivity).
    rewrite IH by (intros Hin; apply Hclosed; right; exact Hin).
    reflexivity.
Qed.

Lemma replace_tokens_skip (f : jsstring -> jsstring -> jsstring)
    (matched post : jsstring) :
  replace_tokens f (length matched) (matched ++ post)
  = replace_tokens f O post.
Proof.
  induction matched as [|c matched IH]; [reflexivity|].
  cbn [length app replace_tokens]; exact IH.
Qed.

Lemma replace_tokens_token (f : jsstring -> jsstring -> jsstring)
    (before key post : jsstring) :
  ~ In LBRACKET before -> key <> [] -> ~ In RBRACKET key ->
  replace_tokens f O (before ++ LBRACKET :: key ++ RBRACKET :: post)
  = before ++ f (LBRACKET :: key ++ [RBRACKET]) key ++ replace_tokens f O post.
Proof.
  intros Hbefore Hkey Hclosed.
  induction before as [|c before IH]; cbn [app replace_tokens].
  - rewrite N.eqb_refl; unfold token_at.
    rewrite (token_run_closed key post Hclosed).
    destruct key as [|k key]; [contradiction|].
    rewrite N.eqb_refl; f_equal.
    replace (S (length (k :: key))) with (length ((k :: key) ++ [RBRACKET]))
      by (rewrite length_app; cbn [length]; lia).
    replace ((k :: key) ++ RBRACKET :: post)
      with (((k :: key) ++ [RBRACKET]) ++ post)
      by (rewrite <- app_assoc; reflexivity).
    apply replace_tokens_skip.
  - rewrite (proj2 (N.eqb_neq c LBRACKET))
      by (intros ->; apply Hbefore; left; reflexivity).
    rewrite IH by (intros Hin; apply Hbefore; right; exact Hin).
    reflexivity.
Qed.

(** X15: the placeholder pattern replaces a bracketed, non-empty run of
    characters by what the callback returns for it, copies the text before
    it, and goes on after the closing bracket; a template without an
    opening bracket is left as it is. *)
Theorem replace_tokens_placeholder (f : jsstring -> jsstring -> jsstring)
    (before key post : jsstring) :
  ~ In LBRACKET before -> key <> [] -> ~ In RBRACKET key ->
  replace_tokens f O (before ++ LBRACKET :: key ++ RBRACKET :: post)
  = before ++ f (LBRACKET :: key ++ [RBRACKET]) key ++ replace_tokens f O post
  /\ replace_tokens f O before = before.
Proof.
  intros Hbefore Hkey Hclosed; split;
    [apply replace_tokens_token; assumption|].
  clear Hkey Hclosed; induction before as [|c before IH]; [reflexivity|].
  cbn [replace_tokens].
  rewrite (proj2 (N.eqb_neq c LBRACKET))
    by (intros ->; apply Hbefore; left; reflexivity).
  rewrite IH by (intros Hin; apply Hbefore; right; exact Hin).
  reflexivity.
Qed.



(** X17: a name option that is set and is not a string -- a number, say,
    or an array -- makes [name] throw. *)
Theorem name_rejects_non_string (input : buffer) (options : object)
    (loader : Loader Num) (image : buffer) (info params : object) :
  truthy (field (str "name") params) = true ->
  (forall text, field (str "name") params <> VStr text) ->
  name input options loader image info params = None.
Proof.
  intros Hset Hkind; unfold name; rewrite Hset.
  destruct (field (str "name") params) as [| | | | text | | |];
    try reflexivity.
  destruct (Hkind text eq_refl).
Qed.

Lemma get_absent {V : Type} (k : jsstring) (o : list (jsstring * V)) :
  ~ In k (keys o) -> get k o = None.
Proof.
  induction o as [|[k' v] o IH]; cbn [keys List.map fst get]; intros Hnot;
    [reflexivity|].
  rewrite jsstr_eqb_neq by (intros ->; apply Hnot; left; reflexivity).
  apply IH; intros Hin; apply Hnot; right; exact Hin.
Qed.

(** A spread property takes the value of the source when the source has
    it, and keeps the value it had otherwise. *)
Lemma get_spread (k : jsstring) (source result : object) :
  List.NoDup (keys source) ->
  get k (spread source result)
  = match get k source with
    | Some v => Some v
    | None => get k result
    end.
Proof.
  unfold spread; revert result.
  induction source as [|[k' v] source IH]; intros result Hnd; [reflexivity|].
  inversion Hnd as [|? ? Hnot Hnd']; subst.
  cbn [fold_left get]; rewrite (IH _ Hnd').
  destruct (jsstr_eqb k k') eqn:Heq.
  - apply jsstr_eqb_eq in Heq; subst k'.
    rewrite (get_absent k source Hnot); apply get_assign_eq.
  - rewrite get_assign_ne; [reflexivity|].
    intros ->; rewrite jsstr_eqb_refl in Heq; discriminate Heq.
Qed.

(** X18: in the asset record the type, preset, name and url fields are
    those [data] computes; every other field comes from the info of the
    produced image when the info has it, and from the options of the
    combination otherwise. *)
Theorem data_fields (input : buffer) (options : object)
    (loader : Loader Num) (image : buffer) (info params : object)
    (preset : value) (emitted emitted' : list (jsstring * buffer))
    (asset : object) :
  List.NoDup (keys info) -> List.NoDup (keys params) ->
  data input options loader image info params preset emitted
  = Some (asset, emitted') ->
  get (str "preset") asset = Some preset
  /\ (exists n, name input options loader image info params = Some n
               /\ get (str "type") asset = Some (mime_value (getType n)))
  /\ (forall key,
        ~ In key [str "type"; str "preset"; str "name"; str "url"] ->
        get key asset
        = match get key info with
          | Some v => Some v
          | None => get key params
          end).
Proof.
  intros Hinfo Hparams; unfold data.
  destruct (name input options loader image info params) as [n|];
    [|discriminate].
  intros [= <- _]; split; [|split].
  - rewrite !get_assign_ne by (vm_compute; discriminate).
    apply get_assign_eq.
  - exists n; split; [reflexivity|].
    rewrite !get_assign_ne by (vm_compute; discriminate).
    apply get_assign_eq.
  - intros key Hkey.
    rewrite !get_assign_ne
      by (intros ->; apply Hkey; cbn [In]; tauto).
    rewrite (get_spread key info _ Hinfo), (get_spread key params _ Hparams).
    destruct (get key info); [reflexivity|].
    destruct (get key params); reflexivity.
Qed.

(** X19: when the function that [emit] returns completes for one
    combination, it has added one instance to the heap and changed none:
    the image transformed by the options built for the combination.  When
    the engine reports an error for that instance the promise is rejected
    with it and no file is added; when it gives bytes and [data] returns
    an asset the promise is fulfilled with that asset and the files are
    those [data] leaves; when [data] throws the promise stays pending and
    no file is added.  At most one file is added. *)
Theorem emit_frame (input : buffer) (options : object) (loader : Loader Num)
    (preset : value) (presetOptions : object) (image : nat * object)
    (base : list (jsstring * list value)) (w w' : world)
    (result : outcome Num object) :
  emit input options loader preset presetOptions image base w
  = Some (w', result) ->
  exists (instance i : Img) (spec : object),
    heap w' = heap w ++ [instance]
    /\ heap w !! fst image = Some i
    /\ normalizeSharpOptions presetOptions (snd image) base = Some spec
    /\ instance
       = fold_left (fun inst key => stage spec key inst) operations i
    /\ match toBuffer instance with
       | inl err => result = Rejected err /\ files w' = files w
       | inr (bytes, info) =>
           match data input options loader bytes info presetOptions preset
                   (files w) with
           | Some (asset, emitted) =>
               result = Fulfilled asset /\ files w' = emitted
           | None => result = Pending /\ files w' = files w
           end
       end
    /\ (exists added, files w' = files w ++ added /\ (length added <= 1)%nat).
Proof.
  unfold emit.
  destruct (normalizeSharpOptions presetOptions (snd image) base) as [spec|];
    [|discriminate].
  destruct (heap w !! fst image) as [i|] eqn:Hi;
    [|rewrite (transform_invalid _ _ spec Hi); discriminate].
  rewrite (transform_stages _ _ i spec Hi).
  rewrite (list_lookup_middle (heap w) [] _ (length (heap w)) eq_refl).
  intros Hrun.
  exists (fold_left (fun inst key => stage spec key inst) operations i), i, spec.
  destruct (toBuffer _) as [err|[bytes info]] eqn:Hbuffer.
  - revert Hrun; intros [= <- <-]; cbn [heap files].
    repeat (split; [reflexivity|]); split; [split; reflexivity|].
    exists []; rewrite app_nil_r; split; [reflexivity | cbn; lia].
  - destruct (data input options loader bytes info presetOptions preset
                (files w)) as [[asset emitted]|] eqn:Hdata.
    + revert Hrun; intros [= <- <-]; cbn [heap files].
      repeat (split; [reflexivity|]); split; [split; reflexivity|].
      unfold data in Hdata.
      destruct (name input options loader bytes info presetOptions) as [n|];
        [|discriminate Hdata].
      revert Hdata; intros [= _ <-].
      destruct (truthy (field (str "inline") presetOptions)); cbn [negb].
      * exists []; rewrite app_nil_r; split; [reflexivity | cbn; lia].
      * eexists; split; [reflexivity | cbn; lia].
    + revert Hrun; intros [= <- <-]; cbn [heap files].
      repeat (split; [reflexivity|]); split; [split; reflexivity|].
      exists []; rewrite app_nil_r; split; [reflexivity | cbn; lia].
Qed.

(** ** Orchestrator *)

Lemma keys_assign_present {V : Type} (k : jsstring) (v : V)
    (o : list (jsstring * V)) :
  In k (keys o) -> keys (assign k v o) = keys o.
Proof.
  induction o as [|[k' w] o IH]; cbn [keys List.map fst assign];
    intros Hin; [destruct Hin|].
  destruct (jsstr_eqb k k') eqn:Heq; cbn [List.map fst]; [reflexivity|].
  f_equal; apply IH; destruct Hin as [->|Hin]; [|exact Hin].
  rewrite jsstr_eqb_refl in Heq; discriminate Heq.
Qed.

Lemma keys_assign_NoDup {V : Type} (k : jsstring) (v : V)
    (o : list (jsstring * V)) :
  List.NoDup (keys o) -> List.NoDup (keys (assign k v o)).
Proof.
  intros Hnd.
  destruct (List.in_dec (List.list_eq_dec N.eq_dec) k (keys o)) as [Hin|Hnot].
  - rewrite (keys_assign_present k v o Hin); exact Hnd.
  - rewrite (assign_fresh k v o Hnot).
    unfold keys; rewrite map_app; cbn [List.map fst].
    apply List.NoDup_app; [exact Hnd | repeat constructor; intros [] |].
    intros x Hx [<-|[]]; exact (Hnot Hx).
Qed.

Lemma map_state_length {W X Y : Type} (f : X -> W -> option (W * Y))
    (l : list X) (w w' : W) (ys : list Y) :
  map_state f l w = Some (w', ys) -> length ys = length l.
Proof.
  revert w w' ys; induction l as [|x l IH]; intros w w' ys; cbn [map_state].
  - intros [= <- <-]; reflexivity.
  - destruct (f x w) as [[w1 y]|]; [|discriminate].
    destruct (map_state f l w1) as [[w2 zs]|] eqn:Hrest; [|discriminate].
    intros [= <- <-]; cbn [length]; f_equal; exact (IH _ _ _ Hrest).
Qed.

(** X20: for a name that the table declares, [handle] calls [emit] once for
    every combination of the normalised declaration, to which the overrides
    are added under the key preset; the calls are made in odometer order and
    there are as many promises as the product of the lengths of the value
    sequences. *)
Theorem handle_declared_preset {W A : Type}
    (emit_one : value -> object -> nat * object ->
                list (jsstring * list value) -> W -> option (W * outcome Num A))
    (image : nat * object) (preset : value) (selected : jsstring)
    (declared : list (jsstring * optval))
    (presets : list (jsstring * list (jsstring * optval))) (w : W) :
  selected <> [] -> get selected presets = Some declared ->
  List.NoDup (keys declared) ->
  let base :=
    normalizePreset (assign (str "preset") (Lit preset) declared)
      (snd image) in
  handle emit_one image preset (VStr selected) presets w
  = map_state (fun options => emit_one (VStr selected) options image base)
      (odometer base) w
  /\ (forall w' promises,
        handle emit_one image preset (VStr selected) presets w
        = Some (w', promises) ->
        length promises = combinations_count base).
Proof.
  intros Hname Hget Hnd base.
  assert (Hbase : List.NoDup (keys base)).
  { unfold base; rewrite normalizePreset_map by (apply keys_assign_NoDup, Hnd).
    unfold keys; rewrite map_map; cbn [fst].
    apply (keys_assign_NoDup _ _ declared Hnd). }
  assert (Heq : handle emit_one image preset (VStr selected) presets w
                = map_state
                    (fun options => emit_one (VStr selected) options image base)
                    (odometer base) w).
  { unfold handle, preset_named, read; cbn [to_string]; rewrite Hget.
    fold base; rewrite (multiplex_combine base Hbase), combine_product.
    destruct selected; [contradiction | reflexivity]. }
  split; [exact Heq|].
  intros w' promises Hrun; rewrite Heq in Hrun.
  rewrite (map_state_length _ _ _ _ _ Hrun); apply odometer_length.
Qed.


(** X22: without a selector (the name is null) and with no preset called
    null in the table, [handle] makes one call of [emit], for the single
    combination that holds the overrides object under the key preset: the
    overrides are not merged into the options of the combination. *)
Theorem handle_without_selector {W A : Type}
    (emit_one : value -> object -> nat * object ->
                list (jsstring * list value) -> W -> option (W * outcome Num A))
    (image : nat * object) (extra : object)
    (presets : list (jsstring * list (jsstring * optval))) (w : W) :
  get (str "null") presets = None ->
  handle emit_one image (VObj extra) VNull presets w
  = match emit_one VNull [(str "preset", VObj extra)] image
            [(str "preset", [VObj extra])] w with
    | Some (w', promise) => Some (w', [promise])
    | None => None
    end.
Proof.
  intros Hnone; unfold handle, preset_named, read.
  cbn [to_string truthy andb]; rewrite Hnone; reflexivity.
Qed.

Lemma concat_state_app {W X Y : Type} (f : X -> W -> option (W * list Y))
    (first second : list X) (w : W) :
  concat_state f (first ++ second) w
  = match concat_state f first w with
    | Some (w1, ys) =>
        match concat_state f second w1 with
        | Some (w2, zs) => Some (w2, ys ++ zs)
        | None => None
        end
    | None => None
    end.
Proof.
  revert w; induction first as [|x first IH]; intros w;
    cbn [app concat_state].
  - destruct (concat_state f second w) as [[w2 zs]|]; reflexivity.
  - destruct (f x w) as [[w1 ys]|]; [|reflexivity].
    rewrite IH.
    destruct (concat_state f first w1) as [[w2 zs]|]; [|reflexivity].
    destruct (concat_state f second w2) as [[w3 us]|]; [|reflexivity].
    rewrite app_assoc; reflexivity.
Qed.

(** X23: a list of selected names is handled name by name, in order:
    [lolol] calls [handle] for the first name with the overrides and the
    preset table, then goes on with the rest in the state that this call
    left, and the promises of the first name come before those of the
    rest; no name gives no promise.  The promises of a list are those of
    its first part followed by those of its second part, and a single name
    is handled like the list that holds it alone. *)
Theorem lolol_in_selection_order {W A : Type}
    (emit_one : value -> object -> nat * object ->
                list (jsstring * list value) -> W -> option (W * outcome Num A))
    (image : nat * object) (extra : value) (selected : value)
    (rest first second : list value) (single : jsstring)
    (globals : list (jsstring * list (jsstring * optval))) (w : W) :
  lolol emit_one image extra (VArr (selected :: rest)) globals w
  = match handle emit_one image extra selected globals w with
    | Some (w1, promises) =>
        match lolol emit_one image extra (VArr rest) globals w1 with
        | Some (w2, others) => Some (w2, promises ++ others)
        | None => None
        end
    | None => None
    end
  /\ lolol emit_one image extra (VArr []) globals w = Some (w, [])
  /\ lolol emit_one image extra (VArr (first ++ second)) globals w
     = match lolol emit_one image extra (VArr first) globals w with
       | Some (w1, promises) =>
           match lolol emit_one image extra (VArr second) globals w1 with
           | Some (w2, others) => Some (w2, promises ++ others)
           | None => None
           end
       | None => None
       end
  /\ lolol emit_one image extra (VStr single) globals w
     = lolol emit_one image extra (VArr [VStr single]) globals w.
Proof.
  split; [|split; [|split]].
  - cbn [lolol concat_state].
    destruct (handle emit_one image extra selected globals w) as [[w1 ps]|];
      reflexivity.
  - reflexivity.
  - apply concat_state_app.
  - cbn [lolol concat_state].
    destruct (handle emit_one image extra (VStr single) globals w)
      as [[w1 ps]|]; [rewrite app_nil_r|]; reflexivity.
Qed.


Lemma settle_fulfilled {A : Type} (promises : list (outcome Num A))
    (assets : list A) :
  settle promises = Fulfilled assets <-> promises = List.map Fulfilled assets.
Proof.
  revert assets; induction promises as [|[a|r|r|] promises IH];
    intros assets; cbn [settle].
  - split; [intros [= <-]; reflexivity|].
    destruct assets; [reflexivity | discriminate].
  - destruct (settle promises) as [others|r|r|] eqn:Hrest.
    + split.
      * intros [= <-]; cbn [List.map]; f_equal; apply IH; reflexivity.
      * destruct assets as [|a' assets]; [discriminate|].
        intros [= <- Hmap]; apply IH in Hmap.
        injection Hmap as <-; reflexivity.
    + split; [discriminate|].
      destruct assets as [|a' assets]; [discriminate|].
      intros [= <- Hmap]; apply IH in Hmap; discriminate Hmap.
    + split; [discriminate|].
      destruct assets as [|a' assets]; [discriminate|].
      intros [= <- Hmap]; apply IH in Hmap; discriminate Hmap.
    + split; [discriminate|].
      destruct assets as [|a' assets]; [discriminate|].
      intros [= <- Hmap]; apply IH in Hmap; discriminate Hmap.
  - split; [discriminate | destruct assets; discriminate].
  - split; [discriminate | destruct assets; discriminate].
  - split; [discriminate | destruct assets; discriminate].
Qed.

Lemma settle_rejected {A : Type} (promises : list (outcome Num A))
    (reason : value) :
  settle promises = Rejected reason -> In (Rejected reason) promises.
Proof.
  induction promises as [|[a|r|r|] promises IH]; cbn [settle];
    try discriminate.
  - destruct (settle promises) as [others|r|r|]; try discriminate.
    intros [= <-]; right; apply IH; reflexivity.
  - intros [= <-]; left; reflexivity.
Qed.

Lemma rejected_at_once_none {A : Type} (assets : list A) :
  rejected_at_once (List.map (Fulfilled (Num:=Num)) assets) = None.
Proof. induction assets as [|a assets IH]; [reflexivity | exact IH]. Qed.

Lemma rejected_at_once_In {A : Type} (promises : list (outcome Num A))
    (reason : value) :
  rejected_at_once promises = Some reason ->
  In (RejectedAtOnce reason) promises.
Proof.
  induction promises as [|[a|r|r|] promises IH]; cbn [rejected_at_once];
    try discriminate; try (intros Hrest; right; exact (IH Hrest)).
  intros [= <-]; left; reflexivity.
Qed.

Lemma settle_rejected_at_once {A : Type} (promises : list (outcome Num A))
    (reason : value) :
  settle promises = RejectedAtOnce reason ->
  In (RejectedAtOnce reason) promises.
Proof.
  induction promises as [|[a|r|r|] promises IH]; cbn [settle];
    try discriminate.
  - destruct (settle promises) as [others|r|r|]; try discriminate.
    intros [= <-]; right; apply IH; reflexivity.
  - intros [= <-]; left; reflexivity.
Qed.

(** X24: [Promise.all] is fulfilled exactly when every promise is, with
    the assets in the order of the promises; a reason it is rejected with
    is the reason of one of the promises. *)
Theorem all_or_nothing {A : Type} (promises : list (outcome Num A)) :
  (forall assets,
      all promises = Fulfilled assets <-> promises = List.map Fulfilled assets)
  /\ (forall reason,
        all promises = Rejected reason -> In (Rejected reason) promises)
  /\ (forall reason,
        all promises = RejectedAtOnce reason ->
        In (RejectedAtOnce reason) promises).
Proof.
  unfold all; split; [|split].
  - intros assets; split.
    + destruct (rejected_at_once promises); [discriminate|].
      apply settle_fulfilled.
    + intros ->; rewrite rejected_at_once_none.
      apply settle_fulfilled; reflexivity.
  - intros reason.
    destruct (rejected_at_once promises); [discriminate|].
    apply settle_rejected.
  - intros reason.
    destruct (rejected_at_once promises) as [r|] eqn:Hfirst.
    + intros [= <-]; apply rejected_at_once_In; exact Hfirst.
    + apply settle_rejected_at_once.
Qed.

(** X25: the overrides of an invocation are the local query without its
    preset and presets entries: these two are never among them, and every
    other entry is kept. *)
Theorem rest_of_query_drops_selectors (localQuery : object) :
  get (str "preset") (rest_of_query localQuery) = None
  /\ get (str "presets") (rest_of_query localQuery) = None
  /\ (forall key, key <> str "preset" -> key <> str "presets" ->
        get key (rest_of_query localQuery) = get key localQuery).
Proof.
  unfold rest_of_query.
  induction localQuery as [|[k v] q (IHpreset & IHpresets & IHother)];
    [repeat split|].
  cbn [List.filter].
  destruct (jsstr_eqb k (str "preset")) eqn:Hpreset;
    [|destruct (jsstr_eqb k (str "presets")) eqn:Hpresets]; cbn [orb negb].
  - apply jsstr_eqb_eq in Hpreset; subst k.
    split; [exact IHpreset|]; split; [exact IHpresets|].
    intros key Hk Hk'; cbn [get].
    rewrite (jsstr_eqb_neq _ _ Hk); apply IHother; assumption.
  - apply jsstr_eqb_eq in Hpresets; subst k.
    split; [exact IHpreset|]; split; [exact IHpresets|].
    intros key Hk Hk'; cbn [get].
    rewrite (jsstr_eqb_neq _ _ Hk'); apply IHother; assumption.
  - assert (Hk1 : jsstr_eqb (str "preset") k = false).
    { apply jsstr_eqb_neq; intros <-.
      rewrite jsstr_eqb_refl in Hpreset; discriminate. }
    assert (Hk2 : jsstr_eqb (str "presets") k = false).
    { apply jsstr_eqb_neq; intros <-.
      rewrite jsstr_eqb_refl in Hpresets; discriminate. }
    cbn [get]; rewrite Hk1, Hk2.
    split; [exact IHpreset|]; split; [exact IHpresets|].
    intros key Hk Hk'; rewrite (IHother key Hk Hk'); reflexivity.
Qed.

End Further.

(** * Further examples *)

(** Distinctness of the keys of a concrete object. *)
Ltac distinct_keys := repeat constructor; vm_compute; intuition discriminate.

Lemma safeString_single_unsafe_witness :
  (unsafe_count (str "a/b") <= 1)%nat
  /\ safeString (str "a/b") = escape_every_occurrence (str "a/b").
Proof.
  assert (Hcount : (unsafe_count (str "a/b") <= 1)%nat) by (vm_compute; lia).
  split; [exact Hcount|].
  exact (proj1 (safeString_single_unsafe (str "a/b") Hcount)).
Defined.

Lemma safeString_leftmost_witness :
  unsafe_count (str "ab") = 0%nat
  /\ safeString (str "ab" ++ SLASH :: str "c/d")
     = str "ab" ++ escape_of UNICODE_CHARS SLASH ++ str "c/d".
Proof.
  split; [reflexivity|].
  exact (proj1 (safeString_leftmost (str "ab") (str "c/d") SLASH
                  eq_refl eq_refl)).
Defined.

Lemma normalizePreset_keeps_keys_witness :
  List.NoDup (keys thumbnail_declaration)
  /\ keys (normalizePreset thumbnail_declaration [])
     = [str "format"; str "width"].
Proof.
  assert (Hkeys : List.NoDup (keys thumbnail_declaration)) by distinct_keys.
  split; [exact Hkeys|].
  exact (proj1 (normalizePreset_keeps_keys [] thumbnail_declaration Hkeys)).
Defined.

Lemma normalize_numeric_witness :
  In (str "width") numeric_keys
  /\ forallb is_number
       (normalize (Num:=rational) [] (str "width") (Lit (VStr (str "200"))))
     = true.
Proof.
  assert (Hkey : In (str "width") numeric_keys)
    by (do 2 right; left; reflexivity).
  split; [exact Hkey|].
  exact (normalize_numeric [] (str "width") (Lit (VStr (str "200"))) Hkey).
Defined.

Lemma normalize_passes_through_witness :
  ~ In (str "format") numeric_keys
  /\ normalize (Num:=rational) [] (str "format")
       (Lit (VArr [VStr (str "webp"); VStr (str "png")]))
     = [VStr (str "webp"); VStr (str "png")].
Proof.
  assert (Hkey : ~ In (str "format") numeric_keys)
    by (vm_compute; intuition discriminate).
  split; [exact Hkey|].
  exact (normalize_passes_through [] (str "format")
           (VArr [VStr (str "webp"); VStr (str "png")]) Hkey).
Defined.

Lemma multiplex_empty_sequence_witness :
  List.NoDup (keys no_width) /\ In (str "width", []) no_width
  /\ multiplex no_width = [].
Proof.
  assert (Hkeys : List.NoDup (keys no_width)) by distinct_keys.
  assert (Hin : In (str "width", []) no_width) by (right; left; reflexivity).
  split; [exact Hkeys|]; split; [exact Hin|].
  exact (multiplex_empty_sequence no_width (str "width") Hkeys Hin).
Defined.

Lemma multiplex_scalars_witness :
  List.NoDup (keys dense_options)
  /\ multiplex [ (str "density", [int 2]); (str "width", [int 10]) ]
     = [dense_options].
Proof.
  assert (Hkeys : List.NoDup (keys dense_options)) by distinct_keys.
  split; [exact Hkeys|].
  exact (multiplex_scalars dense_options Hkeys).
Defined.

Lemma transform_reads_operations_only_witness :
  (forall key, In key operations ->
        get key png_resize
        = get key (png_resize ++ [(str "inline", VBool true)]))
  /\ transform (Img:=call_log rational) [[]] 0 png_resize
     = transform [[]] 0 (png_resize ++ [(str "inline", VBool true)]).
Proof.
  assert (Hagree : forall key, In key operations ->
                     get key png_resize
                     = get key (png_resize ++ [(str "inline", VBool true)])).
  { intros key Hin; cbn [operations In] in Hin.
    repeat (destruct Hin as [<-|Hin]; [reflexivity|]); destruct Hin. }
  split; [exact Hagree|].
  exact (transform_reads_operations_only (Img:=call_log rational)
           [[]] 0 png_resize _ Hagree).
Defined.

Lemma normalizeSharpOptions_never_blurs_witness :
  normalizeSharpOptions blurred_options [] []
  = Some [ (str "toFormat", VStr (str "png")); (str "crop", int 0);
           (str "inline", VBool true) ]
  /\ get (str "blur")
       [ (str "toFormat", VStr (str "png")); (str "crop", int 0);
         (str "inline", VBool true) ] = None.
Proof.
  split; [reflexivity|].
  destruct (normalizeSharpOptions_never_blurs (Img:=call_log rational)
              blurred_options [] [] _ eq_refl) as (_ & Hblur & _).
  exact Hblur.
Defined.

Lemma normalizeSharpOptions_fields_witness :
  normalizeSharpOptions blurred_options [] []
  = Some [ (str "toFormat", VStr (str "png")); (str "crop", int 0);
           (str "inline", VBool true) ]
  /\ get (str "inline")
       [ (str "toFormat", VStr (str "png")); (str "crop", int 0);
         (str "inline", VBool true) ] = Some (VBool true).
Proof.
  split; [reflexivity|].
  destruct (normalizeSharpOptions_fields blurred_options [] [] _ eq_refl)
    as (_ & Hinline & _).
  exact Hinline.
Defined.

Lemma replace_extension_known_formats_witness :
  str "tiff" <> [] /\ ~ In DOT (str "tiff")
  /\ replace_extension (replacement_text (extension (str "jpeg")))
       (str "img/photo" ++ DOT :: str "tiff")
     = str "img/photo" ++ str ".jpg".
Proof.
  assert (Hext : str "tiff" <> []) by (vm_compute; discriminate).
  assert (Hdot : ~ In DOT (str "tiff")) by (vm_compute; intuition discriminate).
  split; [exact Hext|]; split; [exact Hdot|].
  destruct (replace_extension_known_formats (str "img/photo") (str "tiff")
              Hext Hdot) as (_ & Hjpeg & _).
  exact Hjpeg.
Defined.

Lemma replace_tokens_placeholder_witness :
  ~ In LBRACKET (str "out.") /\ str "format" <> []
  /\ ~ In RBRACKET (str "format")
  /\ replace_tokens (fun _ key => key) O
       (str "out." ++ LBRACKET :: str "format" ++ RBRACKET :: str ".x")
     = str "out.format.x".
Proof.
  assert (Hbefore : ~ In LBRACKET (str "out."))
    by (vm_compute; intuition discriminate).
  assert (Hkey : str "format" <> []) by (vm_compute; discriminate).
  assert (Hclosed : ~ In RBRACKET (str "format"))
    by (vm_compute; intuition discriminate).
  split; [exact Hbefore|]; split; [exact Hkey|]; split; [exact Hclosed|].
  exact (proj1 (replace_tokens_placeholder (fun _ key => key)
                  (str "out.") (str "format") (str ".x")
                  Hbefore Hkey Hclosed)).
Defined.


Lemma name_rejects_non_string_witness :
  truthy (field (str "name") numbered_params) = true
  /\ name [] [] photo_loader [] tiff_info numbered_params = None.
Proof.
  split; [reflexivity|].
  apply name_rejects_non_string; [reflexivity|].
  intros text; vm_compute; discriminate.
Defined.

Lemma data_fields_witness :
  List.NoDup (keys tiff_info) /\ List.NoDup (keys named_params)
  /\ exists asset emitted,
       data [] [] photo_loader [] tiff_info named_params VNull []
       = Some (asset, emitted)
       /\ get (str "format") asset = Some (VStr (str "tiff")).
Proof.
  assert (Hinfo : List.NoDup (keys tiff_info)) by distinct_keys.
  assert (Hparams : List.NoDup (keys named_params)) by distinct_keys.
  split; [exact Hinfo|]; split; [exact Hparams|].
  destruct (data [] [] photo_loader [] tiff_info named_params VNull [])
    as [[asset emitted]|] eqn:Hdata; [|vm_compute in Hdata; discriminate Hdata].
  exists asset, emitted; split; [reflexivity|].
  destruct (data_fields [] [] photo_loader [] tiff_info named_params VNull
              [] emitted asset Hinfo Hparams Hdata) as (_ & _ & Hother).
  rewrite (Hother (str "format"))
    by (vm_compute; intuition discriminate).
  reflexivity.
Defined.

Lemma emit_frame_witness :
  exists w' promise,
    record_emit VNull named_params (0%nat, []) [] fresh_world
    = Some (w', promise)
    /\ exists instance, heap w' = heap fresh_world ++ [instance].
Proof.
  destruct (record_emit VNull named_params (0%nat, []) [] fresh_world)
    as [[w' promise]|] eqn:Hrun; [|vm_compute in Hrun; discriminate Hrun].
  exists w', promise; split; [reflexivity|].
  destruct (emit_frame [] [] photo_loader VNull named_params
              (0%nat, []) [] fresh_world w' promise Hrun)
    as (instance & _ & _ & Hheap & _).
  exists instance; exact Hheap.
Defined.

Lemma handle_declared_preset_witness :
  str "fit" <> []
  /\ forall w' promises,
       handle record_emit (0%nat, []) (VObj []) (VStr (str "fit"))
         contain_presets fresh_world = Some (w', promises) ->
       length promises = 1%nat.
Proof.
  assert (Hname : str "fit" <> []) by (vm_compute; discriminate).
  split; [exact Hname|].
  refine (proj2 (handle_declared_preset record_emit (0%nat, []) (VObj [])
                   (str "fit") _ contain_presets fresh_world
                   Hname eq_refl _)).
  distinct_keys.
Defined.


Lemma handle_without_selector_witness :
  get (str "null") thumbnail_presets = None
  /\ handle record_emit (0%nat, []) (VObj [(str "width", int 10)]) VNull
       thumbnail_presets fresh_world
     = match record_emit VNull
               [(str "preset", VObj [(str "width", int 10)])] (0%nat, [])
               [(str "preset", [VObj [(str "width", int 10)]])]
               fresh_world with
       | Some (w', promise) => Some (w', [promise])
       | None => None
       end.
Proof.
  split; [reflexivity|].
  exact (handle_without_selector record_emit (0%nat, [])
           [(str "width", int 10)] thumbnail_presets fresh_world eq_refl).
Defined.
